(** * pgn2pdf: the PGN parser and the TeX generator of [pgn2pdf.py]

    A shallow embedding of [PGNParser], [TEXWriter] and [PGN2PDF], and the
    properties of the tokenizer, the move aggregator, the header parser and
    the variation-aware document generator.

    Python 2 byte strings are Rocq [string]s (a character is one byte); the
    header dictionary is a [gmap string string]; exceptions are values of
    [exn]; objects mutated by the methods are threaded as explicit state. *)

From Stdlib Require Import Ascii String DecimalString DecimalNat.
From stdpp Require Import gmap strings list.

(** ** Python string primitives *)

Definition nl : ascii := "010"%char.
Definition dquote : ascii := "034"%char.
Definition NL : string := String nl "".

(** [str.isspace] on one byte (C locale). *)
Definition isspace (c : ascii) : bool :=
  match c with
  | "009" | "010" | "011" | "012" | "013" | " " => true
  | _ => false
  end%char.

(** [c.islower()] and [c.lower()] on one byte (C locale). *)
Definition islower (c : ascii) : bool :=
  let n := nat_of_ascii c in (97 <=? n) && (n <=? 122).

Definition lower_char (c : ascii) : ascii :=
  let n := nat_of_ascii c in
  if (65 <=? n) && (n <=? 90) then ascii_of_nat (n + 32) else c.

Fixpoint lower (s : string) : string :=
  match s with
  | "" => ""
  | String c s' => String (lower_char c) (lower s')
  end.

Fixpoint lstrip (s : string) : string :=
  match s with
  | "" => ""
  | String c s' => if isspace c then lstrip s' else s
  end.

Fixpoint rstrip (s : string) : string :=
  match s with
  | "" => ""
  | String c s' =>
      match rstrip s' with
      | "" => if isspace c then "" else String c ""
      | r => String c r
      end
  end.

Definition strip (s : string) : string := rstrip (lstrip s).

(** [sep.join(l)] *)
Fixpoint join (sep : string) (l : list string) : string :=
  match l with
  | [] => ""
  | [x] => x
  | x :: l' => x +:+ sep +:+ join sep l'
  end.

(** [s.split(sep)] for a one-character separator: never the empty list. *)
Fixpoint split_on (sep : ascii) (s : string) : list string :=
  match s with
  | "" => [""]
  | String c s' =>
      if Ascii.eqb c sep then "" :: split_on sep s'
      else match split_on sep s' with
           | h :: t => String c h :: t
           | [] => [String c ""]
           end
  end.

(** The longest prefix whose characters satisfy [p], and what follows. *)
Fixpoint span (p : ascii -> bool) (s : string) : string * string :=
  match s with
  | "" => ("", "")
  | String c s' =>
      if p c then let (a, r) := span p s' in (String c a, r) else ("", s)
  end.

(** [s.split(None, 1)]: the first whitespace-delimited word and, when
    something other than whitespace follows it, the remainder from its first
    non-blank character on. *)
Definition split_ws1 (s : string) : list string :=
  match lstrip s with
  | "" => []
  | s1 =>
      let (w, r) := span (fun c => negb (isspace c)) s1 in
      match lstrip r with
      | "" => [w]
      | r' => [w; r']
      end
  end.

(** [s.startswith(p)], returning what follows the prefix. *)
Fixpoint strip_prefix (p s : string) : option string :=
  match p, s with
  | "", _ => Some s
  | String a p', String b s' => if Ascii.eqb a b then strip_prefix p' s' else None
  | String _ _, "" => None
  end.

Definition startswith (s p : string) : bool :=
  match strip_prefix p s with Some _ => true | None => false end.

(** [s[n:]] *)
Fixpoint drop_chars (n : nat) (s : string) : string :=
  match n, s with
  | S n', String _ s' => drop_chars n' s'
  | _, _ => s
  end.

(** ** Exceptions and results *)

Inductive exn : Type :=
  | ValueError (msg : string)
  | IndexError
  | TypeError
  | AttributeError
  | KeyError (key : string).

(** The result of running a piece of the program: a value, a raised
    exception, or [OutOfFuel] when a loop was cut by the model's fuel (shown
    below never to happen). *)
Inductive outcome (A : Type) : Type :=
  | Ok (x : A)
  | Raise (e : exn)
  | OutOfFuel.
Arguments Ok {A} x.
Arguments Raise {A} e.
Arguments OutOfFuel {A}.

(** ** Regular expressions of [PGNParser]

    A compiled pattern is the function [regex.match]: [None] when the pattern
    does not match at the start of the text, otherwise the captured groups the
    program reads (numbered from 1) and the text after [match.end()]. *)

Record re_match := ReMatch { groups : list string; rest_after : string }.
Definition regex := string -> option re_match.

(** Any characters other than [stop], then [stop]: the text before the first
    [stop] and the text after it. *)
Fixpoint until_char (stop : ascii) (s : string) : option (string * string) :=
  match s with
  | "" => None
  | String c s' =>
      if Ascii.eqb c stop then Some ("", s')
      else match until_char stop s' with
           | Some (a, r) => Some (String c a, r)
           | None => None
           end
  end.

(** At most [n] leading characters satisfying [p] (a greedy bounded repetition). *)
Fixpoint take_class (p : ascii -> bool) (n : nat) (s : string) : string * string :=
  match n, s with
  | S m, String c s' =>
      if p c then let (a, r) := take_class p m s' in (String c a, r) else ("", s)
  | _, _ => ("", s)
  end.

(** The comment pattern: an opening brace, a group of any characters other
    than a closing brace (as many as there are), a closing brace. *)
Definition comment_re : regex := fun s =>
  match s with
  | String "{"%char s' =>
      match until_char "}"%char s' with
      | Some (g, r) => Some (ReMatch [g] r)
      | None => None
      end
  | _ => None
  end.

(** The patterns of one opening and of one closing parenthesis: no group. *)
Definition start_variation_re : regex := fun s =>
  match s with String "("%char r => Some (ReMatch [] r) | _ => None end.

Definition end_variation_re : regex := fun s =>
  match s with String ")"%char r => Some (ReMatch [] r) | _ => None end.

(** The character class of the evaluation pattern, written plus, hyphen,
    slash, equals: the hyphen makes a range from plus to slash (codes 43 to
    47, so also the comma and the full stop), to which equals (61) is added. *)
Definition evaluation_char (c : ascii) : bool :=
  let n := nat_of_ascii c in ((43 <=? n) && (n <=? 47)) || (n =? 61).

(** The evaluation pattern: a group of one to three characters of the class,
    greedy. *)
Definition evaluation_re : regex := fun s =>
  match take_class evaluation_char 3 s with
  | ("", _) => None
  | (g, r) => Some (ReMatch [g] r)
  end.

(** The result pattern, an alternation of 1-0, 0-1 and 1/2-1/2 tried in this
    order: group 1 is the whole token; the inner groups are not read by the
    program and are left out. *)
Definition result_re : regex := fun s =>
  match strip_prefix "1-0" s with
  | Some r => Some (ReMatch ["1-0"] r)
  | None =>
      match strip_prefix "0-1" s with
      | Some r => Some (ReMatch ["0-1"] r)
      | None =>
          match strip_prefix "1/2-1/2" s with
          | Some r => Some (ReMatch ["1/2-1/2"] r)
          | None => None
          end
      end
  end.

(** The header pattern: any number of spaces, an opening bracket, a group of
    one or more characters other than a space, one space, a double quote, a
    group of one or more characters other than a double quote, a double quote
    and a closing bracket. Each group is greedy and is followed by a character
    it excludes, so the match is unique. *)
Definition header_re : regex := fun line =>
  match snd (span (Ascii.eqb " "%char) line) with
  | String "["%char s1 =>
      match span (fun c => negb (Ascii.eqb c " "%char)) s1 with
      | (String k0 k, String " "%char (String q1 s2)) =>
          if Ascii.eqb q1 dquote then
            match span (fun c => negb (Ascii.eqb c dquote)) s2 with
            | (String v0 v, String q2 (String "]"%char r)) =>
                if Ascii.eqb q2 dquote
                then Some (ReMatch [String k0 k; String v0 v] r)
                else None
            | _ => None
            end
          else None
      | _ => None
      end
  | _ => None
  end.

(** ** PGNParser *)

Record PGNElement := PGNElt { name : string; text : string }.

Definition game_regexes : list (string * regex) :=
  [ ("comment", comment_re);
    ("start-variation", start_variation_re);
    ("end-variation", end_variation_re);
    ("evaluation", evaluation_re);
    ("result", result_re) ].

Global Instance outcome_ret : MRet outcome := fun _ x => Ok x.
Global Instance outcome_bind : MBind outcome := fun _ _ f m =>
  match m with
  | Ok x => f x
  | Raise e => Raise e
  | OutOfFuel => OutOfFuel
  end.

(** [match.group(i)], [i] counted from 1: an [IndexError] when the pattern has
    no such group. *)
Definition group (m : re_match) (i : nat) : outcome string :=
  match groups m !! (i - 1) with
  | Some g => Ok g
  | None => Raise IndexError
  end.

(** Methods that read and change an object: a function from the object's
    state to an outcome and the state left behind (also when it raises). *)
Definition state (S A : Type) : Type := S -> outcome A * S.

Global Instance state_ret {S} : MRet (state S) := fun _ x st => (Ok x, st).
Global Instance state_bind {S} : MBind (state S) := fun _ _ f m st =>
  match m st with
  | (Ok x, st') => f x st'
  | (Raise e, st') => (Raise e, st')
  | (OutOfFuel, st') => (OutOfFuel, st')
  end.

Section Program.

(** Two functions of the Python library are parameters of the model.
    [textwrap_wrap line width] is [textwrap.wrap(line, width)].
    [format_other spec args] is what the string formatting operator does at a
    conversion specification other than the plain percent-s and the doubled
    percent sign: [spec] is the template after that percent sign, [args] the
    arguments not yet used, and the result is the exception raised or the
    formatted remainder. *)
Variable textwrap_wrap : string -> nat -> list string.
Variable format_other : string -> list string -> exn + string.

(** [template % args], every argument a string (an integer argument is
    converted with [str] by the caller in this model). *)
Fixpoint pyformat (template : string) (args : list string) : outcome string :=
  match template with
  | "" =>
      match args with
      | [] => Ok ""
      | _ :: _ => Raise TypeError
      end
  | String "%"%char (String "s"%char template') =>
      match args with
      | a :: args' => r ← pyformat template' args'; Ok (a +:+ r)
      | [] => Raise TypeError
      end
  | String "%"%char (String "%"%char template') =>
      r ← pyformat template' args; Ok (String "%"%char r)
  | String "%"%char spec =>
      match format_other spec args with
      | inl e => Raise e
      | inr r => Ok r
      end
  | String c template' =>
      r ← pyformat template' args; Ok (String c r)
  end.

(** *** PGNParser.parse_headers

    The loop over [enumerate(lines)]: [lines] is what is left to scan, so
    that [lines[i+1:]] is the tail after the current line. Falling off the
    end of the loop returns Python's [None]. *)
Fixpoint parse_headers_loop (headers : gmap string string) (lines : list string)
  : outcome (gmap string string * option string) :=
  match lines with
  | [] => Ok (headers, None)
  | line :: lines' =>
      match strip line with
      | "" => Ok (headers, Some (join NL lines'))
      | _ =>
          match header_re line with
          | None =>
              msg ← pyformat "Cant parse header: %s" [line];
              Raise (ValueError msg)
          | Some m =>
              key ← group m 1;
              value ← group m 2;
              parse_headers_loop (<[lower key := value]> headers) lines'
          end
      end
  end.

Definition parse_headers (content : string)
  : outcome (gmap string string * option string) :=
  parse_headers_loop ∅ (split_on nl content).

(** *** PGNParser.parse_game *)

(** The [for name, regex in self.game_regexes] loop: the element of the first
    pattern that matches and the text after the match, or [None] when the
    loop runs into its [else] branch. *)
Fixpoint try_regexes (regexes : list (string * regex)) (game_content : string)
  : option (PGNElement * string) :=
  match regexes with
  | [] => None
  | (name, regex) :: regexes' =>
      match regex game_content with
      | None => try_regexes regexes' game_content
      | Some m =>
          let text := match group m 1 with Ok t => t | _ => "" end in
          Some (PGNElt name text, rest_after m)
      end
  end.

(** One turn of the [while True] loop. *)
Inductive parse_step : Type :=
  | Done
  | Emit (elt : PGNElement) (game_content : string)
  | Fail (e : exn).

Definition parse_game_step (game_content : string) : parse_step :=
  match lstrip game_content with
  | "" => Done
  | game_content =>
      match try_regexes game_regexes game_content with
      | Some (elt, game_content') => Emit elt game_content'
      | None =>
          match split_ws1 game_content with
          | [move_text; game_content'] =>
              Emit (PGNElt "move" move_text) game_content'
          | _ => Fail (ValueError "need more than 1 value to unpack")
          end
      end
  end.

Fixpoint parse_game_loop (fuel : nat) (game : list PGNElement)
  (game_content : string) : outcome (list PGNElement) :=
  match parse_game_step game_content with
  | Done => Ok game
  | Fail e => Raise e
  | Emit elt game_content' =>
      match fuel with
      | 0 => OutOfFuel
      | S fuel' => parse_game_loop fuel' (game ++ [elt]) game_content'
      end
  end.

(** [game_content] is what [parse_headers] returned: [None] has no [lstrip]. *)
Definition parse_game (game_content : option string) : outcome (list PGNElement) :=
  match game_content with
  | None => Raise AttributeError
  | Some s => parse_game_loop (String.length s) [] s
  end.

(** *** PGNParser.combine_moves *)
Fixpoint combine_moves_loop (current_moves : list string)
  (new_game game : list PGNElement) : list PGNElement :=
  match game with
  | [] => new_game
  | elt :: game' =>
      if String.eqb (name elt) "move"
      then combine_moves_loop (current_moves ++ [text elt]) new_game game'
      else
        match current_moves with
        | [] => combine_moves_loop [] (new_game ++ [elt]) game'
        | _ :: _ =>
            let moves := join " " current_moves in
            combine_moves_loop []
              ((new_game ++ [PGNElt "moves" moves]) ++ [elt]) game'
        end
  end.

Definition combine_moves (game : list PGNElement) : list PGNElement :=
  combine_moves_loop [] [] game.

Record PGNParser := MkPGNParser {
  headers : gmap string string;
  game : list PGNElement
}.

(** [PGNParser.__init__], from the content of the file at [path]. *)
Definition PGNParser_init (content : string) : outcome PGNParser :=
  '(headers, game_content) ← parse_headers content;
  game ← parse_game game_content;
  let game := combine_moves game in
  Ok (MkPGNParser headers (game ++ [PGNElt "end" ""])).

(** ** TEXWriter

    [out] is the list of the strings passed to [self.out.write], in order;
    the file holds their concatenation. The variation stack grows at its end,
    as the Python list does. *)

Record TEXWriter := MkTEXWriter {
  out : list string;
  variation_counter : nat;
  variation_stack : list string
}.

Definition TEXWriter_init : TEXWriter := MkTEXWriter [] 0 [].

Definition lift {S A : Type} (o : outcome A) : state S A := fun st => (o, st).
Definition raise {S A : Type} (e : exn) : state S A := fun st => (Raise e, st).

Definition out_write (s : string) : state TEXWriter unit := fun w =>
  (Ok tt, MkTEXWriter (out w ++ [s]) (variation_counter w) (variation_stack w)).

Definition write (line : string) (args : list string)
  (paragraph trailing_newline : bool) : state TEXWriter unit :=
  line ← lift (pyformat line args);
  (if paragraph then out_write NL else mret tt);;
  out_write (join NL (textwrap_wrap line 78) +:+ NL);;
  if paragraph || trailing_newline then out_write NL else mret tt.

Definition start : state TEXWriter unit :=
  write "\documentclass[a4paper]{article}" [] false false;;
  write "\usepackage{xskak}" [] false false;;
  write "\setlength{\parskip}{1em}" [] false false;;
  write "\begin{document}" [] false false;;
  write "" [] false false;;
  write "\newchessgame[id=main]" [] false false.

Definition write_title (title : string) : state TEXWriter unit :=
  write "\section{%s}" [title] false false.

Definition make_diagram : state TEXWriter unit :=
  write "\chessboard" [] true false.

Definition cur_var : state TEXWriter string := fun w =>
  (Ok (List.last (variation_stack w) "main"), w).

(** [self.variation_counter.next()] *)
Definition next_variation : state TEXWriter nat := fun w =>
  (Ok (variation_counter w),
   MkTEXWriter (out w) (S (variation_counter w)) (variation_stack w)).

Definition str_of_nat (n : nat) : string :=
  NilEmpty.string_of_uint (Nat.to_uint n).

Definition push_variation (var : string) : state TEXWriter unit := fun w =>
  (Ok tt, MkTEXWriter (out w) (variation_counter w) (variation_stack w ++ [var])).

(** [self.variation_stack.pop()] *)
Definition pop_variation : state TEXWriter unit := fun w =>
  match variation_stack w with
  | [] => (Raise IndexError, w)
  | _ :: _ =>
      (Ok tt,
       MkTEXWriter (out w) (variation_counter w) (removelast (variation_stack w)))
  end.

Definition start_variation : state TEXWriter unit :=
  n ← next_variation;
  var ← lift (pyformat "var%s" [str_of_nat n]);
  parent ← cur_var;
  write "\newchessgame[newvar=%s, id=%s]" [parent; var] false false;;
  push_variation var.

Definition end_variation : state TEXWriter unit :=
  pop_variation;;
  parent ← cur_var;
  stack ← (fun w => (Ok (variation_stack w), w));
  write "\resumechessgame[id=%s]" [parent] false
    (Nat.eqb (length stack) 0).

Definition setup_board (fen : string) : state TEXWriter unit :=
  write "\fenboard{%s}" [fen] false false.

Definition write_moves (moves : string) : state TEXWriter unit :=
  write "\mainline { %s }" [moves] false false.

(** [TEXWriter.end]; closing the file leaves [out] as it is. *)
Definition end_ : state TEXWriter unit :=
  write "" [] false false;;
  write "\end{document}" [] false false.

(** ** PGN2PDF *)

Record PGN2PDF := MkPGN2PDF {
  pgn : PGNParser;
  game_index : nat;
  tex : TEXWriter
}.

(** A method of [self.tex] run from a method of [PGN2PDF]. *)
Definition on_tex {A : Type} (m : state TEXWriter A) : state PGN2PDF A := fun st =>
  let (r, w) := m (tex st) in (r, MkPGN2PDF (pgn st) (game_index st) w).

Definition make_name (color : string) : state PGN2PDF string := fun st =>
  match headers (pgn st) !! color with
  | Some v => (Ok (default "" (head (split_on ","%char v))), st)
  | None => (Raise (KeyError color), st)
  end.

Definition make_title : state PGN2PDF string :=
  white ← make_name "white";
  black ← make_name "black";
  title ← lift (pyformat "%s - %s" [white; black]);
  hs ← (fun st => (Ok (headers (pgn st)), st));
  match hs !! "site", hs !! "date" with
  | Some site, Some date =>
      extra ← lift (pyformat " %s %s"
                      [site; default "" (head (split_on "."%char date))]);
      mret (title +:+ extra)
  | _, _ => mret title
  end.

(** The property [current_elt]: [self.pgn.game[self.game_index]]. *)
Definition current_elt : state PGN2PDF PGNElement := fun st =>
  match game (pgn st) !! game_index st with
  | Some elt => (Ok elt, st)
  | None => (Raise IndexError, st)
  end.

Definition advance_game_index : state PGN2PDF unit := fun st =>
  (Ok tt, MkPGN2PDF (pgn st) (S (game_index st)) (tex st)).

(** The loop over [text.split(newline)] at the end of [parse_comment]. *)
Fixpoint write_comment_lines (lines : list string) : state PGN2PDF unit :=
  match lines with
  | [] => mret tt
  | line :: lines' =>
      match strip line with
      | "" => write_comment_lines lines'
      | line => on_tex (write line [] true false);; write_comment_lines lines'
      end
  end.

Definition parse_comment (text : string) : state PGN2PDF unit :=
  match text with
  | "" => raise IndexError
  | String c _ =>
      if islower c then on_tex (write text [] false false)
      else
        next ← current_elt;
        end_var ←
          (if String.eqb (name next) "end-variation"
           then on_tex (write ")" [] false false);;
                advance_game_index;; mret true
           else mret false);
        text ←
          (if startswith text "(D)"
           then on_tex make_diagram;; mret (strip (drop_chars 3 text))
           else mret text);
        write_comment_lines (split_on nl text);;
        if end_var : bool
        then on_tex end_variation;; on_tex (write "" [] false false)
        else mret tt
  end.

(** The body of the loop of [write_game] for one element: [true] to go on
    with the next element, [false] at [break]. *)
Definition write_elt (elt : PGNElement) : state PGN2PDF bool :=
  if String.eqb (name elt) "moves" then
    on_tex (write_moves (text elt));; mret true
  else if String.eqb (name elt) "comment" then
    parse_comment (text elt);; mret true
  else if String.eqb (name elt) "evaluation" then
    on_tex (write (text elt) [] false false);; mret true
  else if String.eqb (name elt) "result" then
    on_tex (write (text elt) [] true false);; mret true
  else if String.eqb (name elt) "start-variation" then
    on_tex (write "(" [] false false);; on_tex start_variation;; mret true
  else if String.eqb (name elt) "end-variation" then
    on_tex (write ")" [] false false);; on_tex end_variation;; mret true
  else if String.eqb (name elt) "end" then
    mret false
  else
    msg ← lift (pyformat "Unknown PGN element: %s" [name elt]);
    raise (ValueError msg).

(** [write_game] driving [game_iterator]: while the cursor is inside the
    game, take the current element, advance, run the body. *)
Fixpoint write_game_loop (fuel : nat) : state PGN2PDF unit := fun st =>
  if game_index st <? length (game (pgn st)) then
    match fuel with
    | 0 => (OutOfFuel, st)
    | S fuel' =>
        (elt ← current_elt;
         advance_game_index;;
         continue ← write_elt elt;
         if continue : bool then write_game_loop fuel' else mret tt) st
    end
  else (Ok tt, st).

Definition write_game : state PGN2PDF unit := fun st =>
  write_game_loop (length (game (pgn st)) - game_index st) st.

Definition convert : state PGN2PDF unit :=
  on_tex start;;
  title ← make_title;
  on_tex (write_title title);;
  hs ← (fun st => (Ok (headers (pgn st)), st));
  match hs !! "fen" with
  | Some fen => on_tex (setup_board fen);; on_tex make_diagram
  | None => mret tt
  end;;
  write_game;;
  on_tex end_.

(** [PGN2PDF.__init__] up to and including [self.convert()], from the content
    of the PGN file: the outcome and the strings written to the TeX file. *)
Definition pgn2tex (content : string) : outcome unit * list string :=
  match PGNParser_init content with
  | Ok p =>
      let (r, st) := convert (MkPGN2PDF p 0 TEXWriter_init) in (r, out (tex st))
  | Raise e => (Raise e, [])
  | OutOfFuel => (OutOfFuel, [])
  end.

(** ** Notions used to state the properties *)

(** What one call of [write] hands to the file for its line, and the strings
    written by a call without and with [paragraph=True]. *)
Definition wrapped (line : string) : string :=
  join NL (textwrap_wrap line 78) +:+ NL.

Definition line_out (line : string) : list string := [wrapped line].
Definition paragraph_out (line : string) : list string := [NL; wrapped line; NL].

(** [tokenizes s game]: the turns of the tokenizer's loop started on [s] emit
    the elements of [game] in order and end with nothing left but blanks. *)
Inductive tokenizes : string -> list PGNElement -> Prop :=
  | tokenizes_done s :
      parse_game_step s = Done -> tokenizes s []
  | tokenizes_emit s elt s' game :
      parse_game_step s = Emit elt s' ->
      tokenizes s' game ->
      tokenizes s (elt :: game).

Definition is_move (elt : PGNElement) : bool := String.eqb (name elt) "move".

(** The Move Aggregator as the specification words it: the run of moves being
    buffered is emitted when a non-move element or the end of the sequence is
    reached. *)
Fixpoint aggregate_from (run : list string) (game : list PGNElement)
  : list PGNElement :=
  let flush :=
    match run with
    | [] => []
    | _ :: _ => [PGNElt "moves" (join " " run)]
    end in
  match game with
  | [] => flush
  | elt :: game' =>
      if is_move elt then aggregate_from (run ++ [text elt]) game'
      else flush ++ elt :: aggregate_from [] game'
  end.

Definition aggregate (game : list PGNElement) : list PGNElement :=
  aggregate_from [] game.

(** The dictionary entry a header line stands for, and the dictionary built
    from header lines taken in order (a later line replaces an earlier one
    with the same key). *)
Definition header_entry (line : string) : option (string * string) :=
  match header_re line with
  | Some m =>
      match groups m with
      | [key; value] => Some (lower key, value)
      | _ => None
      end
  | None => None
  end.

Definition insert_header (headers : gmap string string) (line : string)
  : gmap string string :=
  match header_entry line with
  | Some (key, value) => <[key := value]> headers
  | None => headers
  end.

Definition collect_headers (lines : list string) : gmap string string :=
  foldl insert_header ∅ lines.

(** The strings one call [write(line, paragraph=p, trailing_newline=t)] hands
    to the file once [line] has been formatted. *)
Definition write_out (line : string) (paragraph trailing_newline : bool)
  : list string :=
  (if paragraph then [NL] else [])
  ++ [wrapped line]
  ++ (if paragraph || trailing_newline then [NL] else []).

(** The lines of a comment that reach the document: each line stripped, the
    empty ones dropped. *)
Definition paragraph_lines (text : string) : list string :=
  List.filter (fun line => negb (String.eqb line ""))
              (strip <$> split_on nl text).

(** One paragraph per line, in order. *)
Definition write_paragraphs (lines : list string) : state PGN2PDF unit :=
  foldr (fun line rest => on_tex (write line [] true false);; rest)
        (mret tt) lines.

(** The text of a comment without its diagram marker. *)
Definition comment_body (text : string) : string :=
  if startswith text "(D)" then strip (drop_chars 3 text) else text.

(** What [parse_comment] does between the early closing delimiter and the
    late pop: the diagram of a comment marked (D), then its paragraphs. *)
Definition comment_paragraphs (text : string) : state PGN2PDF unit :=
  (if startswith text "(D)" then on_tex make_diagram else mret tt);;
  write_paragraphs (paragraph_lines (comment_body text)).

(** A state with a given TeX writer, and with strings appended to the file. *)
Definition with_out (w : TEXWriter) (more : list string) : TEXWriter :=
  MkTEXWriter (out w ++ more) (variation_counter w) (variation_stack w).

Definition emit (st : PGN2PDF) (more : list string) : PGN2PDF :=
  MkPGN2PDF (pgn st) (game_index st) (with_out (tex st) more).

(** The element sequence of the reordering scenario, and the generator
    started on a game with an empty dictionary of headers. *)
Definition reordering_game : list PGNElement :=
  [ PGNElt "moves" "e4"; PGNElt "start-variation" ""; PGNElt "moves" "d4";
    PGNElt "comment" "Interesting idea."; PGNElt "end-variation" "" ].

Definition generator (game : list PGNElement) (game_index : nat) : PGN2PDF :=
  MkPGN2PDF (MkPGNParser ∅ game) game_index TEXWriter_init.

(** The elements the generator gets to: those before the first [end]
    element; and how many of them carry a given name. *)
Fixpoint processed (game : list PGNElement) : list PGNElement :=
  match game with
  | [] => []
  | elt :: game' =>
      if String.eqb (name elt) "end" then [] else elt :: processed game'
  end.

Definition count_name (n : string) (game : list PGNElement) : nat :=
  length (List.filter (fun elt => String.eqb (name elt) n) game).

(** [st'] differs from [st] at most by what was written and by the counter
    of variations. *)
Definition same_cursor (st st' : PGN2PDF) : Prop :=
  pgn st' = pgn st
  /\ game_index st' = game_index st
  /\ variation_stack (tex st') = variation_stack (tex st).

(** A method returns: whatever the state, it ends with a value or with an
    exception, never by exhausting the fuel of the model. *)
Definition returns {S A : Type} (m : state S A) : Prop :=
  forall st, fst (m st) <> OutOfFuel.

(** The end-to-end scenario: three header lines, a blank line, the movetext. *)
Definition header_line (key value : string) : string :=
  "[" +:+ key +:+ " " +:+ String dquote (value +:+ String dquote "]").

Definition scenario_headers : list string :=
  [ header_line "White" "Smith, John";
    header_line "Black" "Doe, Jane";
    header_line "Result" "1-0" ].

Definition scenario_movetext : string :=
  "1. e4 e5 2. Nf3 {A solid reply.} 1-0".

Definition scenario_pgn : string :=
  join NL (scenario_headers ++ [""; scenario_movetext]).

(** What [TEXWriter.start] and [TEXWriter.end] write. *)
Definition preamble_out : list string :=
  line_out "\documentclass[a4paper]{article}"
  ++ line_out "\usepackage{xskak}"
  ++ line_out "\setlength{\parskip}{1em}"
  ++ line_out "\begin{document}"
  ++ line_out ""
  ++ line_out "\newchessgame[id=main]".

Definition closing_out : list string :=
  line_out "" ++ line_out "\end{document}".

(** Inputs on which the statements below are run. *)
Definition unclosed_pgn : string :=
  join NL [header_line "White" "Smith"; header_line "Black" "Doe"; ""; "("].

Definition unclosed_game : list PGNElement :=
  [PGNElt "start-variation" ""; PGNElt "end" ""].

Definition blank_comment_game : list PGNElement :=
  [PGNElt "comment" " "; PGNElt "end" ""].

Definition paragraph_comment_game : list PGNElement :=
  [PGNElt "comment" "Better here."; PGNElt "end" ""].

(** Every character of [s] satisfies [p]. *)
Fixpoint all_chars (p : ascii -> bool) (s : string) : bool :=
  match s with
  | "" => true
  | String c s' => p c && all_chars p s'
  end.

(** The names [write_game] has a branch for, [end] apart. *)
Definition generator_names : list string :=
  ["moves"; "comment"; "evaluation"; "result";
   "start-variation"; "end-variation"].

(** The text of [s] before the first occurrence of [sep]: what
    [s.split(sep)[0]] is. *)
Definition before_first (sep : ascii) (s : string) : string :=
  fst (span (fun c => negb (Ascii.eqb c sep)) s).

(** The identifier of the [n]-th variation opened. *)
Definition var_name (n : nat) : string := "var" +:+ str_of_nat n.

(** The writer after a variation was opened, and after the innermost one was
    closed. *)
Definition started (w : TEXWriter) : TEXWriter :=
  let var := var_name (variation_counter w) in
  MkTEXWriter
    (out w
     ++ line_out ("\newchessgame[newvar="
                  +:+ List.last (variation_stack w) "main"
                  +:+ ", id=" +:+ var +:+ "]"))
    (S (variation_counter w))
    (variation_stack w ++ [var]).

Definition ended (w : TEXWriter) : TEXWriter :=
  let stack := removelast (variation_stack w) in
  MkTEXWriter
    (out w
     ++ write_out ("\resumechessgame[id=" +:+ List.last stack "main" +:+ "]")
          false (Nat.eqb (length stack) 0))
    (variation_counter w)
    stack.

(** [preserves P m]: if [P] holds before [m] it holds after, whether [m]
    returns a value or raises. *)
Definition preserves {S A : Type} (P : S -> Prop) (m : state S A) : Prop :=
  forall st, P st -> P (snd (m st)).

(** The four ways in which the generator changes its state: it writes to the
    file, it moves the cursor to the next element while inside the game, it
    opens a variation, it closes the innermost one. A property closed under
    them is kept by every method of the generator. *)
Record closed (P : PGN2PDF -> Prop) : Prop := Closed {
  closed_emit : forall st more, P st -> P (emit st more);
  closed_advance : forall st,
    P st ->
    game_index st < length (game (pgn st)) ->
    P (MkPGN2PDF (pgn st) (S (game_index st)) (tex st));
  closed_started : forall st,
    P st -> P (MkPGN2PDF (pgn st) (game_index st) (started (tex st)));
  closed_ended : forall st,
    P st ->
    variation_stack (tex st) <> [] ->
    P (MkPGN2PDF (pgn st) (game_index st) (ended (tex st)))
}.

(** The open variations carry distinct identifiers, all made from numbers
    below the counter. *)
Definition fresh_ids (w : TEXWriter) : Prop :=
  exists ks,
    variation_stack w = var_name <$> ks
    /\ Forall (fun k => k < variation_counter w) ks
    /\ NoDup ks.

(** The parser of the end-to-end scenario, and a generator whose headers are
    those of the title example. *)
Definition scenario_parser : PGNParser :=
  MkPGNParser (collect_headers scenario_headers)
    [ PGNElt "moves" "1. e4 e5 2. Nf3"; PGNElt "comment" "A solid reply.";
      PGNElt "result" "1-0"; PGNElt "end" "" ].

Definition title_headers : gmap string string :=
  <["white" := "Smith, John"]>
    (<["black" := "Doe, Jane"]>
       (<["site" := "London"]> (<["date" := "2020.01.15"]> ∅))).

Definition title_generator : PGN2PDF :=
  MkPGN2PDF (MkPGNParser title_headers [PGNElt "end" ""]) 0 TEXWriter_init.

(** What the text of an element may hold, by its name, when the element
    comes from the tokenizer. *)
Definition token_ok (elt : PGNElement) : bool :=
  if String.eqb (name elt) "comment" then
    all_chars (fun c => negb (Ascii.eqb c "}"%char)) (text elt)
  else if String.eqb (name elt) "start-variation" then
    String.eqb (text elt) ""
  else if String.eqb (name elt) "end-variation" then
    String.eqb (text elt) ""
  else if String.eqb (name elt) "evaluation" then
    negb (String.eqb (text elt) "")
    && (String.length (text elt) <=? 3)
    && all_chars evaluation_char (text elt)
  else if String.eqb (name elt) "result" then
    String.eqb (text elt) "1-0" || String.eqb (text elt) "0-1"
    || String.eqb (text elt) "1/2-1/2"
  else if String.eqb (name elt) "move" then
    negb (String.eqb (text elt) "")
    && all_chars (fun c => negb (isspace c)) (text elt)
  else false.

(** The title [make_title] builds from the headers, given the values of
    [white] and [black]. *)
Definition document_title (hs : gmap string string) (white black : string)
  : string :=
  let players :=
    before_first ","%char white +:+ " - " +:+ before_first ","%char black in
  match hs !! "site", hs !! "date" with
  | Some site, Some date =>
      players +:+ " " +:+ site +:+ " " +:+ before_first "."%char date
  | _, _ => players
  end.

(** What [convert] writes before it gets to the game. *)
Definition header_out (hs : gmap string string) (white black : string)
  : list string :=
  preamble_out
  ++ line_out ("\section{" +:+ document_title hs white black +:+ "}")
  ++ match hs !! "fen" with
     | Some fen =>
         line_out ("\fenboard{" +:+ fen +:+ "}") ++ paragraph_out "\chessboard"
     | None => []
     end.




(** A pattern that cannot match without consuming a character. *)
Definition consuming (r : regex) : Prop :=
  forall s m, r s = Some m -> String.length (rest_after m) < String.length s.

(** ** Lengths of the string primitives *)

Lemma lstrip_length s : String.length (lstrip s) <= String.length s.
Proof.
  induction s as [|c s IH]; simpl; [lia|].
  destruct (isspace c); simpl; lia.
Qed.

Lemma lstrip_head s c t : lstrip s = String c t -> isspace c = false.
Proof.
  induction s as [|a s IH]; simpl; [discriminate|].
  destruct (isspace a) eqn:Ha; [exact IH|].
  intros [= <- _]. exact Ha.
Qed.

Lemma span_length p s a r :
  span p s = (a, r) -> String.length s = String.length a + String.length r.
Proof.
  revert a r. induction s as [|c s IH]; simpl; intros a r.
  - intros [= <- <-]. reflexivity.
  - destruct (p c).
    + destruct (span p s) as [a' r'] eqn:E. intros [= <- <-].
      simpl. rewrite (IH a' r' eq_refl). reflexivity.
    + intros [= <- <-]. reflexivity.
Qed.

Lemma take_class_length p n s a r :
  take_class p n s = (a, r) -> String.length s = String.length a + String.length r.
Proof.
  revert s a r. induction n as [|n IH]; intros [|c s] a r; simpl;
    try (intros [= <- <-]; reflexivity).
  destruct (p c).
  - destruct (take_class p n s) as [a' r'] eqn:E. intros [= <- <-].
    simpl. rewrite (IH s a' r' E). reflexivity.
  - intros [= <- <-]. reflexivity.
Qed.

Lemma until_char_length stop s a r :
  until_char stop s = Some (a, r) -> String.length r < String.length s.
Proof.
  revert a r. induction s as [|c s IH]; simpl; intros a r; [discriminate|].
  destruct (Ascii.eqb c stop).
  - intros [= <- <-]. lia.
  - destruct (until_char stop s) as [[a' r']|]; [|discriminate].
    intros [= <- <-]. specialize (IH a' r' eq_refl). lia.
Qed.

Lemma strip_prefix_length p s r :
  strip_prefix p s = Some r -> String.length s = String.length p + String.length r.
Proof.
  revert s. induction p as [|a p IH]; intros s; simpl.
  - intros [= <-]. reflexivity.
  - destruct s as [|b s]; [discriminate|].
    destruct (Ascii.eqb a b); [|discriminate].
    intros H. simpl. rewrite (IH s H). reflexivity.
Qed.

Lemma split_ws1_length s w r :
  split_ws1 s = [w; r] -> String.length r < String.length s.
Proof.
  unfold split_ws1. pose proof (lstrip_length s) as Hs.
  destruct (lstrip s) as [|c s1] eqn:E; [discriminate|].
  apply lstrip_head in E.
  destruct (span _ (String c s1)) as [w' r'] eqn:Hspan.
  pose proof (span_length _ _ _ _ Hspan) as Hlen.
  simpl in Hspan. rewrite E in Hspan. simpl in Hspan.
  destruct (span _ s1) as [a0 r0]. injection Hspan as <- <-.
  pose proof (lstrip_length r0) as Hr.
  destruct (lstrip r0) as [|c' r''] eqn:Er; [discriminate|].
  intros [= <- <-]. simpl in *. lia.
Qed.

(** ** Every pattern of the tokenizer consumes at least one character *)
Lemma comment_re_consuming : consuming comment_re.
Proof.
  intros [|c s] m; simpl; [discriminate|].
  destruct (Ascii.ascii_dec c "{"%char) as [->|Hc].
  - destruct (until_char _ s) as [[g r]|] eqn:E; [|discriminate].
    intros [= <-]. simpl. apply until_char_length in E. lia.
  - destruct c as [[] [] [] [] [] [] [] []]; try discriminate.
    congruence.
Qed.

Lemma start_variation_re_consuming : consuming start_variation_re.
Proof.
  intros [|c s] m; simpl; [discriminate|].
  destruct c as [[] [] [] [] [] [] [] []]; try discriminate.
  intros [= <-]. simpl. lia.
Qed.

Lemma end_variation_re_consuming : consuming end_variation_re.
Proof.
  intros [|c s] m; simpl; [discriminate|].
  destruct c as [[] [] [] [] [] [] [] []]; try discriminate.
  intros [= <-]. simpl. lia.
Qed.

Lemma evaluation_re_consuming : consuming evaluation_re.
Proof.
  intros s m. unfold evaluation_re.
  destruct (take_class evaluation_char 3 s) as [g r] eqn:E.
  apply take_class_length in E.
  destruct g as [|c g]; [discriminate|].
  intros [= <-]. simpl in *. lia.
Qed.

Lemma result_re_consuming : consuming result_re.
Proof.
  intros s m. unfold result_re.
  destruct (strip_prefix "1-0" s) as [r|] eqn:E1.
  { intros [= <-]. apply strip_prefix_length in E1. simpl in *. lia. }
  destruct (strip_prefix "0-1" s) as [r|] eqn:E2.
  { intros [= <-]. apply strip_prefix_length in E2. simpl in *. lia. }
  destruct (strip_prefix "1/2-1/2" s) as [r|] eqn:E3; [|discriminate].
  intros [= <-]. apply strip_prefix_length in E3. simpl in *. lia.
Qed.

Lemma game_regexes_consuming : Forall (fun nr => consuming (snd nr)) game_regexes.
Proof.
  repeat constructor; simpl.
  - apply comment_re_consuming.
  - apply start_variation_re_consuming.
  - apply end_variation_re_consuming.
  - apply evaluation_re_consuming.
  - apply result_re_consuming.
Qed.

Lemma try_regexes_length regexes s elt s' :
  Forall (fun nr => consuming (snd nr)) regexes ->
  try_regexes regexes s = Some (elt, s') ->
  String.length s' < String.length s.
Proof.
  induction 1 as [|[n r] regexes Hr _ IH]; simpl; [discriminate|].
  destruct (r s) as [m|] eqn:E; [|exact IH].
  intros [= _ <-]. apply (Hr s m E).
Qed.

Lemma parse_game_step_progress s elt s' :
  parse_game_step s = Emit elt s' -> String.length s' < String.length s.
Proof.
  unfold parse_game_step. pose proof (lstrip_length s) as Hs.
  destruct (lstrip s) as [|c t] eqn:E; [discriminate|].
  destruct (try_regexes game_regexes (String c t)) as [[e r]|] eqn:Ht.
  - intros [= _ <-].
    apply try_regexes_length in Ht; [lia | apply game_regexes_consuming].
  - destruct (split_ws1 (String c t)) as [|w [|r [|]]] eqn:Hw; try discriminate.
    intros [= _ <-]. apply split_ws1_length in Hw. lia.
Qed.

Lemma parse_game_step_fail s e :
  parse_game_step s = Fail e -> exists msg, e = ValueError msg.
Proof.
  unfold parse_game_step.
  destruct (lstrip s) as [|c t]; [discriminate|].
  destruct (try_regexes _ _) as [[? ?]|]; [discriminate|].
  destruct (split_ws1 _) as [|w [|r [|]]]; try discriminate;
    intros [= <-]; eauto.
Qed.

Lemma parse_game_loop_total fuel game s :
  String.length s <= fuel ->
  (exists game', parse_game_loop fuel game s = Ok (game ++ game')
                 /\ tokenizes s game')
  \/ (exists msg, parse_game_loop fuel game s = Raise (ValueError msg)).
Proof.
  revert game s. induction fuel as [|fuel IH]; intros game s Hlen.
  - simpl. destruct (parse_game_step s) as [|elt s'|e] eqn:E.
    + left. exists []. rewrite app_nil_r. split; [reflexivity|].
      by apply tokenizes_done.
    + apply parse_game_step_progress in E. lia.
    + right. apply parse_game_step_fail in E as [msg ->]. eauto.
  - simpl. destruct (parse_game_step s) as [|elt s'|e] eqn:E.
    + left. exists []. rewrite app_nil_r. split; [reflexivity|].
      by apply tokenizes_done.
    + pose proof (parse_game_step_progress _ _ _ E) as Hlt.
      destruct (IH (game ++ [elt]) s') as [(game' & Hrun & Htok)|[msg Hrun]];
        [lia| |].
      * left. exists (elt :: game'). rewrite Hrun, <- app_assoc. simpl.
        split; [reflexivity|]. by eapply tokenizes_emit.
      * right. eauto.
    + right. apply parse_game_step_fail in E as [msg ->]. eauto.
Qed.


(** ** The move aggregator *)

Lemma combine_moves_loop_no_move current_moves new_game game :
  Forall (fun elt => is_move elt = false) new_game ->
  Forall (fun elt => is_move elt = false)
         (combine_moves_loop current_moves new_game game).
Proof.
  revert current_moves new_game.
  induction game as [|elt game IH]; intros cur acc Hacc; simpl; [exact Hacc|].
  destruct (String.eqb (name elt) "move") eqn:E; [by apply IH|].
  destruct cur as [|m cur]; apply IH; repeat (apply Forall_app; split);
    auto; by repeat constructor.
Qed.

Lemma combine_moves_loop_id new_game game :
  Forall (fun elt => is_move elt = false) game ->
  combine_moves_loop [] new_game game = new_game ++ game.
Proof.
  intros H. revert new_game.
  induction H as [|elt game Helt _ IH]; intros acc; simpl.
  - by rewrite app_nil_r.
  - unfold is_move in Helt. rewrite Helt, IH, <- app_assoc. reflexivity.
Qed.

(** C6. Aggregator idempotence: the output of [combine_moves] holds no
    [move] element, and running [combine_moves] on it returns it unchanged. *)
Theorem combine_moves_idempotent (game : list PGNElement) :
  Forall (fun elt => name elt <> "move") (combine_moves game)
  /\ combine_moves (combine_moves game) = combine_moves game.
Proof.
  assert (Forall (fun elt => is_move elt = false) (combine_moves game)) as H.
  { apply combine_moves_loop_no_move. constructor. }
  split.
  - eapply Forall_impl; [exact H|]. intros elt Helt Hname.
    unfold is_move in Helt. rewrite Hname in Helt. discriminate.
  - unfold combine_moves at 1. by rewrite combine_moves_loop_id.
Qed.



(** Away from that case the code is the aggregator of the specification:
    whenever the sequence does not end with a [move] element. *)
Lemma combine_moves_loop_aggregate current_moves new_game game :
  match last game with
  | Some elt => is_move elt = false
  | None => current_moves = []
  end ->
  combine_moves_loop current_moves new_game game =
  new_game ++ aggregate_from current_moves game.
Proof.
  revert current_moves new_game.
  induction game as [|elt game IH]; intros cur acc Hlast.
  - simpl in *. subst cur. by rewrite app_nil_r.
  - assert (is_move elt = true ->
            match last game with
            | Some e => is_move e = false
            | None => cur ++ [text elt] = []
            end) as Hmove.
    { intros Hm. destruct game as [|e game]; [simpl in Hlast; congruence|].
      rewrite last_cons_cons in Hlast.
      destruct (last (e :: game)) eqn:El; [exact Hlast|].
      by apply last_None in El. }
    assert (match last game with
            | Some e => is_move e = false
            | None => @nil string = []
            end) as Hother.
    { destruct game as [|e game]; [reflexivity|].
      rewrite last_cons_cons in Hlast.
      destruct (last (e :: game)); [exact Hlast|reflexivity]. }
    simpl. fold (is_move elt). destruct (is_move elt) eqn:Em.
    + apply IH. by apply Hmove.
    + destruct cur as [|m cur]; rewrite (IH [] _ Hother);
        rewrite <- ?app_assoc; reflexivity.
Qed.

Lemma combine_moves_aggregate game :
  match last game with Some elt => is_move elt = false | None => True end ->
  combine_moves game = aggregate game.
Proof.
  intros H. unfold combine_moves, aggregate.
  rewrite combine_moves_loop_aggregate; [reflexivity|].
  destruct (last game); auto.
Qed.

(** ** The tokenizer never ends on a move *)

Lemma try_regexes_not_move s elt s' :
  try_regexes game_regexes s = Some (elt, s') -> is_move elt = false.
Proof.
  unfold game_regexes. cbn [try_regexes].
  repeat (match goal with
          | |- context [match ?r s with _ => _ end] => destruct (r s)
          end; [by intros [= <- _]|]).
  discriminate.
Qed.

Lemma split_ws1_rest s w r : split_ws1 s = [w; r] -> parse_game_step r <> Done.
Proof.
  unfold split_ws1. destruct (lstrip s) as [|c s1]; [discriminate|].
  destruct (span _ (String c s1)) as [w' r0].
  destruct (lstrip r0) as [|c' r'] eqn:E; [discriminate|].
  intros [= _ <-]. apply lstrip_head in E.
  unfold parse_game_step. cbn [lstrip]. rewrite E.
  destruct (try_regexes _ _) as [[? ?]|]; [discriminate|].
  destruct (split_ws1 _) as [|? [|? [|]]]; discriminate.
Qed.

Lemma tokenizes_last s game :
  tokenizes s game ->
  match last game with Some elt => is_move elt = false | None => True end.
Proof.
  induction 1 as [s Hdone|s elt s' game Hstep Htok IH]; [exact I|].
  destruct game as [|e game]; [|by rewrite last_cons_cons].
  cbn [last]. inversion Htok as [? Hdone|]; subst.
  unfold parse_game_step in Hstep.
  destruct (lstrip s) as [|c t]; [discriminate|].
  destruct (try_regexes game_regexes (String c t)) as [[e r]|] eqn:Ht.
  - injection Hstep as <- _. apply (try_regexes_not_move _ _ _ Ht).
  - destruct (split_ws1 (String c t)) as [|w [|r [|]]] eqn:Hw;
      try discriminate.
    injection Hstep as _ <-. by apply split_ws1_rest in Hw.
Qed.

(** On every sequence the tokenizer produces, [combine_moves] is the
    aggregator of the specification. *)
Lemma parse_game_aggregate s game :
  parse_game (Some s) = Ok game -> combine_moves game = aggregate game.
Proof.
  intros Hrun. apply combine_moves_aggregate.
  destruct (parse_game_loop_total (String.length s) [] s)
    as [(game' & Hrun' & Htok)|[msg Hrun']]; [lia| |].
  - unfold parse_game in Hrun. rewrite Hrun' in Hrun.
    injection Hrun as <-. apply (tokenizes_last s _ Htok).
  - unfold parse_game in Hrun. congruence.
Qed.

(** ** The header parser *)

Lemma append_String c s t : String c s +:+ t = String c (s +:+ t).
Proof. reflexivity. Qed.

Lemma append_empty_r s : s +:+ "" = s.
Proof.
  induction s as [|c s IH]; [reflexivity|]. by rewrite append_String, IH.
Qed.

Lemma split_on_cons sep s : exists h t, split_on sep s = h :: t.
Proof.
  induction s as [|c s (h & t & IH)]; simpl; [eauto|].
  destruct (Ascii.eqb c sep); [eauto|]. rewrite IH. eauto.
Qed.

Lemma join_split_on s : join NL (split_on nl s) = s.
Proof.
  induction s as [|c s IH]; [reflexivity|]. simpl.
  destruct (Ascii.eqb_spec c nl) as [->|Hc].
  - destruct (split_on_cons nl s) as (h & t & E). rewrite E in *.
    change (join NL ("" :: h :: t)) with (String nl (join NL (h :: t))).
    by rewrite IH.
  - destruct (split_on_cons nl s) as (h & t & E). rewrite E in *.
    rewrite <- IH. by destruct t.
Qed.

Lemma header_re_groups line m :
  header_re line = Some m -> exists key value, groups m = [key; value].
Proof.
  unfold header_re. intros H.
  repeat case_match; simplify_eq; simpl; eauto.
Qed.

Lemma pyformat_cant_parse line :
  pyformat "Cant parse header: %s" [line] = Ok ("Cant parse header: " +:+ line).
Proof. simpl. by rewrite append_empty_r. Qed.

Lemma parse_headers_loop_app headers pre rest :
  Forall (fun l => strip l <> "") pre ->
  Forall (fun l => is_Some (header_re l)) pre ->
  parse_headers_loop headers (pre ++ rest) =
  parse_headers_loop (foldl insert_header headers pre) rest.
Proof.
  intros Hblank. revert headers.
  induction Hblank as [|line pre Hline _ IH]; intros headers Hmatch;
    [reflexivity|].
  apply Forall_cons in Hmatch as [[m Hm] Hmatch].
  cbn [app parse_headers_loop].
  destruct (strip line) eqn:Es; [done|].
  rewrite Hm. destruct (header_re_groups _ _ Hm) as (key & value & Hg).
  unfold group. rewrite Hg.
  change (parse_headers_loop (<[lower key := value]> headers) (pre ++ rest)
          = parse_headers_loop
              (foldl insert_header (insert_header headers line) pre) rest).
  replace (insert_header headers line) with (<[lower key := value]> headers)
    by (unfold insert_header, header_entry; by rewrite Hm, Hg).
  by apply IH.
Qed.

Lemma lower_char_idemp c : lower_char (lower_char c) = lower_char c.
Proof. by destruct c as [[] [] [] [] [] [] [] []]. Qed.

Lemma lower_idemp s : lower (lower s) = lower s.
Proof.
  induction s as [|c s IH]; simpl; [reflexivity|].
  by rewrite lower_char_idemp, IH.
Qed.

Lemma collect_headers_lower lines key value :
  collect_headers lines !! key = Some value -> lower key = key.
Proof.
  unfold collect_headers.
  assert (forall headers : gmap string string,
            (forall k v, headers !! k = Some v -> lower k = k) ->
            forall k v, foldl insert_header headers lines !! k = Some v ->
                        lower k = k) as H.
  { induction lines as [|line lines IH]; intros headers Hh; [exact Hh|].
    simpl. apply IH. unfold insert_header, header_entry.
    destruct (header_re line) as [m|]; [|exact Hh].
    destruct (groups m) as [|k1 [|v1 [|]]]; try exact Hh.
    intros k v [[<- _]|[_ Hk]]%lookup_insert_Some; [apply lower_idemp|].
    by eapply Hh. }
  apply H. intros k v. by rewrite lookup_empty.
Qed.

(** C7. Header parser: when the lines of the input are [pre], then a line
    that is empty once stripped, then [post], and no line of [pre] is such a
    line, the input is those lines joined by newlines; if every line of [pre]
    matches the header pattern the parser returns the dictionary of their
    entries, keys lower-cased, and as movetext body the lines of [post]
    joined again, that is all the text after the blank line; and if a line of
    [pre] does not match, the first such line makes the parser raise
    [ValueError] with a message that ends with that line. *)
Theorem parse_headers_spec (content : string) (pre post : list string)
  (blank : string) :
  split_on nl content = pre ++ blank :: post ->
  Forall (fun l => strip l <> "") pre ->
  strip blank = "" ->
  content = join NL (pre ++ blank :: post)
  /\ (Forall (fun l => is_Some (header_re l)) pre ->
      parse_headers content = Ok (collect_headers pre, Some (join NL post))
      /\ forall key value,
           collect_headers pre !! key = Some value -> lower key = key)
  /\ (forall pre1 bad pre2,
        pre = pre1 ++ bad :: pre2 ->
        Forall (fun l => is_Some (header_re l)) pre1 ->
        header_re bad = None ->
        parse_headers content =
        Raise (ValueError ("Cant parse header: " +:+ bad))).
Proof.
  intros Hsplit Hpre Hblank. split; [|split].
  - rewrite <- Hsplit. symmetry. apply join_split_on.
  - intros Hmatch. split; [|apply collect_headers_lower].
    unfold parse_headers. rewrite Hsplit, parse_headers_loop_app by assumption.
    simpl. by rewrite Hblank.
  - intros pre1 bad pre2 -> Hmatch Hbad.
    apply Forall_app in Hpre as [Hpre1 Hpre2].
    apply Forall_cons in Hpre2 as [Hbadline _].
    unfold parse_headers.
    rewrite Hsplit, <- app_assoc, parse_headers_loop_app by assumption.
    cbn [app parse_headers_loop].
    destruct (strip bad) eqn:Es; [done|].
    rewrite Hbad, pyformat_cant_parse. reflexivity.
Qed.

(** C10. No blank line: when every line of the input is non-empty once
    stripped and matches the header pattern, [parse_headers] returns Python's
    [None] as movetext body (not the empty string), and the parser's
    constructor then fails in [parse_game] with [AttributeError]. *)
Theorem parse_headers_no_blank_line (content : string) :
  Forall (fun l => strip l <> "" /\ is_Some (header_re l)) (split_on nl content) ->
  parse_headers content = Ok (collect_headers (split_on nl content), None)
  /\ PGNParser_init content = Raise AttributeError.
Proof.
  intros H. apply Forall_and in H as [Hblank Hmatch].
  assert (parse_headers content
          = Ok (collect_headers (split_on nl content), None)) as Hp.
  { unfold parse_headers.
    rewrite <- (app_nil_r (split_on nl content)) at 1.
    by rewrite parse_headers_loop_app. }
  split; [exact Hp|]. unfold PGNParser_init. by rewrite Hp.
Qed.

(** ** The TeX writer *)

Lemma bind_run {S A B : Type} (m : state S A) (f : A -> state S B) st :
  (m ≫= f) st =
  match m st with
  | (Ok x, st') => f x st'
  | (Raise e, st') => (Raise e, st')
  | (OutOfFuel, st') => (OutOfFuel, st')
  end.
Proof. reflexivity. Qed.

Lemma write_run line args paragraph trailing_newline w :
  write line args paragraph trailing_newline w =
  match pyformat line args with
  | Ok l => (Ok tt, with_out w (write_out l paragraph trailing_newline))
  | Raise e => (Raise e, w)
  | OutOfFuel => (OutOfFuel, w)
  end.
Proof.
  unfold write. rewrite bind_run. unfold lift.
  destruct (pyformat line args) as [l| |]; try reflexivity.
  destruct w as [o c s]. unfold with_out, write_out, wrapped.
  destruct paragraph, trailing_newline;
    cbv [mbind state_bind mret state_ret out_write orb
         out variation_counter variation_stack];
    rewrite <- ?app_assoc; reflexivity.
Qed.

Lemma on_tex_write_run line args paragraph trailing_newline st :
  on_tex (write line args paragraph trailing_newline) st =
  match pyformat line args with
  | Ok l => (Ok tt, emit st (write_out l paragraph trailing_newline))
  | Raise e => (Raise e, st)
  | OutOfFuel => (OutOfFuel, st)
  end.
Proof.
  unfold on_tex. rewrite write_run.
  destruct (pyformat line args); destruct st as [p i w]; reflexivity.
Qed.

Lemma write_comment_lines_paragraphs lines st :
  write_comment_lines lines st =
  write_paragraphs
    (List.filter (fun line => negb (String.eqb line "")) (strip <$> lines)) st.
Proof.
  revert st. induction lines as [|line lines IH]; intros st; [reflexivity|].
  cbn [write_comment_lines fmap list_fmap List.filter].
  destruct (strip line) as [|c l] eqn:E; [apply IH|].
  cbn [String.eqb negb write_paragraphs foldr].
  rewrite !bind_run. destruct (on_tex _ st) as [[[]| |] st1]; try reflexivity.
  apply IH.
Qed.

(** ** Comments *)

Lemma current_elt_run st :
  current_elt st =
  match game (pgn st) !! game_index st with
  | Some elt => (Ok elt, st)
  | None => (Raise IndexError, st)
  end.
Proof. reflexivity. Qed.

(** [parse_comment] on a text that does not start with a lower-case letter:
    the lookahead, the paragraphs, the late pop. *)
Lemma parse_comment_paragraph st c r :
  islower c = false ->
  parse_comment (String c r) st =
  (next ← current_elt;
   end_var ←
     (if String.eqb (name next) "end-variation"
      then on_tex (write ")" [] false false);; advance_game_index;; mret true
      else mret false);
   comment_paragraphs (String c r);;
   if end_var : bool
   then on_tex end_variation;; on_tex (write "" [] false false)
   else mret tt) st.
Proof.
  intros Hc. unfold parse_comment. rewrite Hc.
  rewrite !bind_run. destruct (current_elt st) as [[next| |] st1]; try reflexivity.
  rewrite !bind_run.
  match goal with |- context [?m st1] => destruct (m st1) as [[ev| |] st2] end;
    try reflexivity.
  unfold comment_paragraphs, comment_body.
  destruct (startswith (String c r) "(D)").
  - rewrite !bind_run.
    destruct (on_tex make_diagram st2) as [[[]| |] st3]; try reflexivity.
    unfold mret, state_ret. rewrite !bind_run, write_comment_lines_paragraphs.
    reflexivity.
  - rewrite !bind_run. unfold mret, state_ret.
    rewrite !bind_run, write_comment_lines_paragraphs. reflexivity.
Qed.

(** C1. Comment before end-variation: when the element at the cursor is
    [end-variation] and the comment text starts with a character that is not
    a lower-case letter, [parse_comment] first writes the closing delimiter
    and advances the cursor past the [end-variation] element, then writes the
    comment's paragraphs, and only then pops the variation stack and resumes
    the parent. On the sequence moves e4, start-variation, moves d4, comment
    Interesting idea., end-variation the file receives the closing delimiter
    before the comment paragraph, and the resume command after it. *)
Theorem parse_comment_closes_variation_first :
  (forall st c r next,
     game (pgn st) !! game_index st = Some next ->
     name next = "end-variation" ->
     islower c = false ->
     parse_comment (String c r) st =
       (on_tex (write ")" [] false false);;
        advance_game_index;;
        comment_paragraphs (String c r);;
        on_tex end_variation;;
        on_tex (write "" [] false false)) st
     /\ parse_comment (String c r) st =
       (comment_paragraphs (String c r);;
        on_tex end_variation;;
        on_tex (write "" [] false false))
         (MkPGN2PDF (pgn st) (S (game_index st))
                    (with_out (tex st) (line_out ")"))))
  /\ write_game (generator reordering_game 0) =
       (Ok tt,
        MkPGN2PDF (MkPGNParser ∅ reordering_game) 5
          (MkTEXWriter
             (line_out "\mainline { e4 }"
              ++ line_out "("
              ++ line_out "\newchessgame[newvar=main, id=var0]"
              ++ line_out "\mainline { d4 }"
              ++ line_out ")"
              ++ paragraph_out "Interesting idea."
              ++ write_out "\resumechessgame[id=main]" false true
              ++ line_out "")
             1 [])).
Proof.
  split; [|reflexivity].
  intros st c r next Hnext Hname Hc.
  rewrite parse_comment_paragraph by exact Hc.
  rewrite bind_run, current_elt_run, Hnext, Hname.
  split; reflexivity.
Qed.

(** C5, as the code has it. A comment whose first character is a lower-case
    letter is written whole by one call of [write] without paragraph, so
    inline. Any other non-empty comment is written by calls with
    [paragraph=True] only: when the next element is not [end-variation],
    [parse_comment] writes the diagram if the text starts with the marker
    (D), and then one paragraph per line of the text that is not blank, each
    stripped. The text better here goes out as one line, the text Better
    here. as one paragraph. *)
Theorem parse_comment_inline_or_paragraphs :
  (forall st c r,
     (islower c = true ->
      parse_comment (String c r) st =
        on_tex (write (String c r) [] false false) st)
     /\ (islower c = false ->
         forall next,
           game (pgn st) !! game_index st = Some next ->
           String.eqb (name next) "end-variation" = false ->
           parse_comment (String c r) st =
             ((if startswith (String c r) "(D)"
               then on_tex make_diagram else mret tt);;
              write_paragraphs (paragraph_lines (comment_body (String c r))))
               st))
  /\ (forall st,
        parse_comment "better here" st =
          (Ok tt, emit st (line_out "better here")))
  /\ (forall st next,
        game (pgn st) !! game_index st = Some next ->
        String.eqb (name next) "end-variation" = false ->
        parse_comment "Better here." st =
          (Ok tt, emit st (paragraph_out "Better here."))).
Proof.
  assert (forall st c r next,
            islower c = false ->
            game (pgn st) !! game_index st = Some next ->
            String.eqb (name next) "end-variation" = false ->
            parse_comment (String c r) st = comment_paragraphs (String c r) st)
    as Hpar.
  { intros st c r next Hc Hnext Hname.
    rewrite parse_comment_paragraph by exact Hc.
    rewrite bind_run, current_elt_run, Hnext, Hname.
    change ((comment_paragraphs (String c r);; mret tt) st
            = comment_paragraphs (String c r) st).
    rewrite bind_run.
    destruct (comment_paragraphs (String c r) st) as [[[]| |] st1];
      reflexivity. }
  split; [|split].
  - intros st c r. split.
    + intros Hc. unfold parse_comment. by rewrite Hc.
    + intros Hc next Hnext Hname. by rewrite (Hpar st c r next).
  - intros st.
    change (parse_comment "better here" st)
      with (on_tex (write "better here" [] false false) st).
    rewrite on_tex_write_run. reflexivity.
  - intros st next Hnext Hname.
    rewrite (Hpar st _ _ next) by (reflexivity || assumption).
    unfold comment_paragraphs.
    change (startswith "Better here." "(D)") with false.
    rewrite bind_run. unfold mret at 1, state_ret at 1.
    change (paragraph_lines (comment_body "Better here."))
      with ["Better here."].
    cbn [write_paragraphs foldr]. rewrite bind_run, on_tex_write_run.
    destruct st as [p i [o n s]]. reflexivity.
Qed.

(** C9. Empty comment: the tokenizer turns an opening brace followed by a
    closing brace into a comment element with empty text, [parse_comment]
    raises [IndexError] on the empty text without writing anything, and so
    does [write_game] when it reaches such an element. *)
Theorem parse_comment_empty_text :
  parse_game (Some "{}") = Ok [PGNElt "comment" ""]
  /\ (forall st, parse_comment "" st = (Raise IndexError, st))
  /\ (forall hs before after w,
        write_game
          (MkPGN2PDF (MkPGNParser hs (before ++ PGNElt "comment" "" :: after))
                     (length before) w)
        = (Raise IndexError,
           MkPGN2PDF (MkPGNParser hs (before ++ PGNElt "comment" "" :: after))
                     (S (length before)) w)).
Proof.
  split; [reflexivity|]. split; [reflexivity|].
  intros hs before after w. unfold write_game.
  cbn [pgn game game_index]. rewrite length_app. cbn [length].
  replace (length before + S (length after) - length before)
    with (S (length after)) by lia.
  cbn [write_game_loop pgn game game_index].
  rewrite length_app. cbn [length].
  destruct (Nat.ltb_spec (length before) (length before + S (length after)));
    [|lia].
  rewrite bind_run, current_elt_run. cbn [pgn game game_index].
  rewrite list_lookup_middle by reflexivity.
  reflexivity.
Qed.

(** ** The variation stack along [write_game] *)

Lemma same_cursor_refl st : same_cursor st st.
Proof. by repeat split. Qed.

Lemma same_cursor_trans st1 st2 st3 :
  same_cursor st1 st2 -> same_cursor st2 st3 -> same_cursor st1 st3.
Proof. unfold same_cursor. intros (-> & -> & ->) (-> & -> & ->). done. Qed.

Lemma on_tex_write_same line args paragraph trailing_newline st r st' :
  on_tex (write line args paragraph trailing_newline) st = (r, st') ->
  same_cursor st st'.
Proof.
  rewrite on_tex_write_run.
  destruct (pyformat line args); intros [= _ <-]; by repeat split.
Qed.

Lemma write_paragraphs_same lines st r st' :
  write_paragraphs lines st = (r, st') -> same_cursor st st'.
Proof.
  revert st. induction lines as [|line lines IH]; intros st.
  - intros [= _ <-]. apply same_cursor_refl.
  - cbn [write_paragraphs foldr]. rewrite bind_run.
    destruct (on_tex _ st) as [[[]| |] st1] eqn:E;
      apply on_tex_write_same in E.
    + intros H. apply IH in H. by eapply same_cursor_trans.
    + by intros [= _ <-].
    + by intros [= _ <-].
Qed.

Lemma comment_paragraphs_same text st r st' :
  comment_paragraphs text st = (r, st') -> same_cursor st st'.
Proof.
  unfold comment_paragraphs. rewrite bind_run.
  destruct (startswith text "(D)").
  - destruct (on_tex make_diagram st) as [[[]| |] st1] eqn:E;
      apply on_tex_write_same in E.
    + intros H%write_paragraphs_same. by eapply same_cursor_trans.
    + by intros [= _ <-].
    + by intros [= _ <-].
  - apply write_paragraphs_same.
Qed.

Lemma start_variation_push w w' :
  start_variation w = (Ok tt, w') ->
  length (variation_stack w') = S (length (variation_stack w)).
Proof.
  unfold start_variation. rewrite !bind_run. cbn [next_variation].
  rewrite bind_run. unfold lift at 1.
  destruct (pyformat "var%s" _) as [var| |]; try discriminate.
  rewrite bind_run. cbn [cur_var]. rewrite bind_run, write_run.
  destruct (pyformat _ _); try discriminate.
  intros [= <-]. cbn. rewrite length_app. cbn. lia.
Qed.

Lemma end_variation_pop w r w' :
  end_variation w = (r, w') ->
  match variation_stack w with
  | [] => r = Raise IndexError /\ w' = w
  | _ :: _ =>
      r = Ok tt -> S (length (variation_stack w')) = length (variation_stack w)
  end.
Proof.
  unfold end_variation. rewrite !bind_run. unfold pop_variation.
  destruct (variation_stack w) as [|v s] eqn:Es.
  - by intros [= <- <-].
  - rewrite bind_run. cbn [cur_var]. rewrite bind_run, write_run.
    destruct (pyformat _ _); intros [= <- <-]; try discriminate.
    intros _. change (S (length (removelast (v :: s))) = length (v :: s)).
    rewrite removelast_firstn_len, length_take. cbn [length]. lia.
Qed.

Lemma on_tex_run {A : Type} (m : state TEXWriter A) st :
  on_tex m st =
  (fst (m (tex st)), MkPGN2PDF (pgn st) (game_index st) (snd (m (tex st)))).
Proof. unfold on_tex. by destruct (m (tex st)). Qed.

Lemma parse_comment_effect text st st' :
  parse_comment text st = (Ok tt, st') ->
  pgn st' = pgn st
  /\ ((game_index st' = game_index st
       /\ variation_stack (tex st') = variation_stack (tex st))
      \/ (exists next,
            game (pgn st) !! game_index st = Some next
            /\ name next = "end-variation"
            /\ game_index st' = S (game_index st)
            /\ S (length (variation_stack (tex st')))
               = length (variation_stack (tex st)))).
Proof.
  destruct text as [|c r]; [discriminate|].
  destruct (islower c) eqn:Hc.
  - unfold parse_comment. rewrite Hc.
    intros (? & ? & ?)%on_tex_write_same. auto.
  - rewrite parse_comment_paragraph by exact Hc.
    rewrite bind_run, current_elt_run.
    destruct (game (pgn st) !! game_index st) as [next|] eqn:Hnext;
      [|discriminate].
    destruct (String.eqb_spec (name next) "end-variation") as [Hname|Hname].
    + set (st1 := MkPGN2PDF (pgn st) (S (game_index st))
                            (with_out (tex st) (line_out ")"))).
      intros H.
      change ((comment_paragraphs (String c r);;
               on_tex end_variation;;
               on_tex (write "" [] false false)) st1 = (Ok tt, st')) in H.
      rewrite bind_run in H.
      destruct (comment_paragraphs (String c r) st1) as [[[]| |] st2] eqn:E;
        try discriminate.
      apply comment_paragraphs_same in E as (Ep & Ei & Es).
      rewrite bind_run, on_tex_run in H.
      destruct (end_variation (tex st2)) as [[[]| |] w3] eqn:Ee;
        try discriminate.
      apply end_variation_pop in Ee. cbn [fst snd] in H.
      rewrite on_tex_write_run in H.
      change (pyformat "" []) with (@Ok string "") in H.
      injection H as <-. split; [exact Ep|]. right. exists next.
      repeat split; try done.
      cbn [tex variation_stack with_out emit].
      rewrite Es in Ee. cbn [st1 tex variation_stack with_out] in Ee.
      destruct (variation_stack (tex st)); [by destruct Ee|]. by apply Ee.
    + intros H.
      change ((comment_paragraphs (String c r);; mret tt) st = (Ok tt, st'))
        in H.
      rewrite bind_run in H.
      destruct (comment_paragraphs (String c r) st) as [[[]| |] st1] eqn:E;
        try discriminate.
      apply comment_paragraphs_same in E as (Ep & Ei & Es).
      injection H as <-. auto.
Qed.

(** The branches of [write_elt] that only write one line ([moves],
    [evaluation], [result]): the cursor and the stack stay as they are. *)
Ltac write_only_elt Hn :=
  rewrite Hn, bind_run;
  match goal with
  | |- context [on_tex ?m ?st] =>
      let E := fresh "E" in
      let Es := fresh "Es" in
      destruct (on_tex m st) as [[[]| |] ?] eqn:E; try discriminate;
      apply on_tex_write_same in E as (? & ? & Es);
      intros [= <- <-]; rewrite Es; cbn; auto 10
  end.

(** The effect of the body of the loop on one element [elt], already taken
    and the cursor advanced: at [end] the loop stops; otherwise either the
    cursor stays and the depth changes as the name of [elt] says, or [elt] is
    a comment that consumed the [end-variation] after it and popped. *)
Lemma write_elt_effect elt st continue st' :
  write_elt elt st = (Ok continue, st') ->
  pgn st' = pgn st
  /\ ((continue = false /\ name elt = "end" /\ st' = st)
      \/ (continue = true
          /\ String.eqb (name elt) "end" = false
          /\ ((game_index st' = game_index st
               /\ length (variation_stack (tex st'))
                  + count_name "end-variation" [elt]
                  = length (variation_stack (tex st))
                    + count_name "start-variation" [elt])
              \/ (exists next,
                    game (pgn st) !! game_index st = Some next
                    /\ name next = "end-variation"
                    /\ game_index st' = S (game_index st)
                    /\ name elt = "comment"
                    /\ S (length (variation_stack (tex st')))
                       = length (variation_stack (tex st)))))).
Proof.
  unfold write_elt, count_name. cbn [List.filter].
  destruct (String.eqb_spec (name elt) "moves") as [Hn|_];
    [write_only_elt Hn|].
  destruct (String.eqb_spec (name elt) "comment") as [Hn|_].
  { rewrite Hn, bind_run.
    destruct (parse_comment _ st) as [[[]| |] st1] eqn:E; try discriminate.
    apply parse_comment_effect in E as [Ep E].
    intros [= <- <-]. split; [exact Ep|]. right. repeat split.
    destruct E as [[Ei Es]|(next & ? & ? & ? & ?)].
    - left. rewrite Es. cbn. auto.
    - right. exists next. auto. }
  destruct (String.eqb_spec (name elt) "evaluation") as [Hn|_];
    [write_only_elt Hn|].
  destruct (String.eqb_spec (name elt) "result") as [Hn|_];
    [write_only_elt Hn|].
  destruct (String.eqb_spec (name elt) "start-variation") as [Hn|_].
  { rewrite Hn, bind_run.
    destruct (on_tex _ st) as [[[]| |] st1] eqn:E; try discriminate.
    apply on_tex_write_same in E as (Ep & Ei & Es).
    rewrite bind_run, on_tex_run.
    destruct (start_variation (tex st1)) as [[[]| |] w2] eqn:E2;
      try discriminate.
    apply start_variation_push in E2. rewrite Es in E2.
    intros [= <- <-]. cbn. rewrite E2. split; [done|]. right.
    repeat split. left. split; [done|lia]. }
  destruct (String.eqb_spec (name elt) "end-variation") as [Hn|_].
  { rewrite Hn, bind_run.
    destruct (on_tex _ st) as [[[]| |] st1] eqn:E; try discriminate.
    apply on_tex_write_same in E as (Ep & Ei & Es).
    rewrite bind_run, on_tex_run.
    destruct (end_variation (tex st1)) as [[[]| |] w2] eqn:E2;
      try discriminate.
    apply end_variation_pop in E2. rewrite Es in E2.
    intros [= <- <-]. cbn. split; [done|]. right.
    repeat split. left. split; [done|].
    destruct (variation_stack (tex st)); [by destruct E2|].
    rewrite <- E2 by reflexivity. lia. }
  destruct (String.eqb_spec (name elt) "end") as [Hn|_].
  { intros [= <- <-]. auto. }
  rewrite bind_run. unfold lift.
  destruct (pyformat _ _); discriminate.
Qed.

Lemma processed_count n elt game :
  String.eqb (name elt) "end" = false ->
  count_name n (processed (elt :: game))
  = count_name n [elt] + count_name n (processed game).
Proof.
  intros Helt. cbn [processed]. rewrite Helt. unfold count_name.
  cbn [List.filter]. destruct (String.eqb (name elt) n); reflexivity.
Qed.

Lemma write_game_loop_balance fuel st st' :
  write_game_loop fuel st = (Ok tt, st') ->
  let elts := processed (drop (game_index st) (game (pgn st))) in
  length (variation_stack (tex st')) + count_name "end-variation" elts
  = length (variation_stack (tex st)) + count_name "start-variation" elts.
Proof.
  revert st. induction fuel as [|fuel IH]; intros st; cbn [write_game_loop];
    destruct (Nat.ltb_spec (game_index st) (length (game (pgn st))))
      as [Hlt|Hge];
    try discriminate;
    try (intros [= <-]; rewrite drop_ge by lia; reflexivity).
  rewrite bind_run, current_elt_run.
  destruct (game (pgn st) !! game_index st) as [elt|] eqn:Helt;
    [|discriminate].
  rewrite bind_run. cbn [advance_game_index].
  set (st1 := MkPGN2PDF (pgn st) (S (game_index st)) (tex st)).
  rewrite bind_run.
  destruct (write_elt elt st1) as [[continue| |] st2] eqn:Ew; try discriminate.
  apply write_elt_effect in Ew as [Ep Ew].
  rewrite (drop_S _ _ _ Helt). cbn zeta.
  destruct Ew as [(-> & Hend & ->)|(-> & Hend & Ew)].
  - intros [= <-]. cbn [processed]. rewrite Hend. reflexivity.
  - intros Hloop. apply IH in Hloop. cbn zeta in Hloop.
    rewrite Ep in Hloop. cbn [st1 pgn] in Hloop.
    destruct Ew as [[Ei Ebal]|(next & Hnext & Hname & Ei & Hcomment & Ebal)].
    + rewrite Ei in Hloop. cbn [st1 game_index tex] in Hloop, Ebal.
      rewrite !(processed_count _ elt) by exact Hend. lia.
    + cbn [st1 game_index tex pgn] in Hnext, Ei, Ebal.
      rewrite Ei in Hloop.
      rewrite (drop_S _ _ _ Hnext).
      rewrite !(processed_count _ elt) by exact Hend.
      rewrite !(processed_count _ next) by (by rewrite Hname).
      unfold count_name at 1 2 4 5. cbn [List.filter].
      rewrite Hcomment, Hname. cbn. lia.
Qed.

(** ** The generator returns *)

Lemma pyformat_returns_upto n template args :
  String.length template <= n -> pyformat template args <> OutOfFuel.
Proof.
  revert template args. induction n as [|n IH]; intros [|c t] args Hlen;
    try (simpl in Hlen; lia); try (destruct args; discriminate).
  assert (forall t' args' (f : string -> outcome string),
            String.length t' <= n ->
            (forall r, f r <> OutOfFuel) ->
            pyformat t' args' ≫= f <> OutOfFuel) as Hrec.
  { intros t' args' f Ht Hf. specialize (IH t' args' Ht).
    destruct (pyformat t' args'); [apply Hf|discriminate|done]. }
  cbn [String.length] in Hlen. cbn [pyformat].
  repeat case_match; subst; try discriminate;
    apply Hrec; try discriminate; cbn [String.length] in *; lia.
Qed.

Lemma pyformat_returns template args : pyformat template args <> OutOfFuel.
Proof. by apply (pyformat_returns_upto (String.length template)). Qed.

Lemma returns_ret {S A : Type} (x : A) : returns (mret x : state S A).
Proof. intros st. discriminate. Qed.

Lemma returns_bind {S A B : Type} (m : state S A) (f : A -> state S B) :
  returns m -> (forall x, returns (f x)) -> returns (m ≫= f).
Proof.
  intros Hm Hf st. rewrite bind_run. specialize (Hm st).
  destruct (m st) as [[x| |] st1]; [apply Hf|discriminate|done].
Qed.

Lemma returns_on_tex {A : Type} (m : state TEXWriter A) :
  returns m -> returns (on_tex m).
Proof. intros Hm st. rewrite on_tex_run. apply Hm. Qed.

Lemma returns_write line args paragraph trailing_newline :
  returns (write line args paragraph trailing_newline).
Proof.
  intros w. rewrite write_run. pose proof (pyformat_returns line args).
  destruct (pyformat line args); [discriminate|discriminate|done].
Qed.

Lemma returns_lift_pyformat {S : Type} template args :
  returns (lift (pyformat template args) : state S string).
Proof. intros st. apply pyformat_returns. Qed.

Lemma returns_start_variation : returns start_variation.
Proof.
  unfold start_variation.
  repeat (apply returns_bind; [|intros ?]);
    try apply returns_write; try apply returns_lift_pyformat;
    intros w; discriminate.
Qed.

Lemma returns_end_variation : returns end_variation.
Proof.
  unfold end_variation.
  apply returns_bind; [|intros _].
  { intros w. unfold pop_variation. by destruct (variation_stack w). }
  apply returns_bind; [intros w; discriminate|intros parent].
  apply returns_bind; [intros w; discriminate|intros stack].
  apply returns_write.
Qed.

Lemma returns_write_comment_lines lines : returns (write_comment_lines lines).
Proof.
  induction lines as [|line lines IH]; [apply returns_ret|].
  cbn [write_comment_lines]. destruct (strip line); [exact IH|].
  apply returns_bind; [|intros _; exact IH].
  apply returns_on_tex, returns_write.
Qed.

Lemma returns_current_elt : returns current_elt.
Proof.
  intros st. rewrite current_elt_run.
  by destruct (game (pgn st) !! game_index st).
Qed.

Lemma returns_parse_comment text : returns (parse_comment text).
Proof.
  destruct text as [|c r]; [intros st; discriminate|].
  unfold parse_comment. destruct (islower c).
  { apply returns_on_tex, returns_write. }
  apply returns_bind; [apply returns_current_elt|intros next].
  apply returns_bind; [|intros end_var].
  { destruct (String.eqb _ _); [|apply returns_ret].
    apply returns_bind; [apply returns_on_tex, returns_write|intros _].
    apply returns_bind; [|intros _; apply returns_ret].
    intros st. discriminate. }
  apply returns_bind; [|intros text].
  { destruct (startswith _ _); [|apply returns_ret].
    apply returns_bind; [|intros _; apply returns_ret].
    apply returns_on_tex, returns_write. }
  apply returns_bind; [apply returns_write_comment_lines|intros _].
  destruct end_var; [|apply returns_ret].
  apply returns_bind; [|intros _]; apply returns_on_tex;
    [apply returns_end_variation|apply returns_write].
Qed.

Lemma returns_write_elt elt : returns (write_elt elt).
Proof.
  unfold write_elt.
  repeat (destruct (String.eqb (name elt) _));
    repeat (apply returns_bind; [|intros ?]);
    try apply returns_ret; try apply returns_parse_comment;
    try apply returns_lift_pyformat;
    try (apply returns_on_tex;
         first [apply returns_write | apply returns_start_variation
               | apply returns_end_variation]).
  intros st. discriminate.
Qed.

Lemma write_game_loop_returns fuel st :
  length (game (pgn st)) - game_index st <= fuel ->
  fst (write_game_loop fuel st) <> OutOfFuel.
Proof.
  revert st. induction fuel as [|fuel IH]; intros st Hfuel;
    cbn [write_game_loop];
    destruct (Nat.ltb_spec (game_index st) (length (game (pgn st))))
      as [Hlt|Hge];
    try discriminate; [lia|].
  rewrite bind_run, current_elt_run.
  destruct (game (pgn st) !! game_index st) as [elt|]; [|discriminate].
  rewrite bind_run. cbn [advance_game_index].
  set (st1 := MkPGN2PDF (pgn st) (S (game_index st)) (tex st)).
  rewrite bind_run. pose proof (returns_write_elt elt st1) as Hret.
  destruct (write_elt elt st1) as [[continue| |] st2] eqn:Ew;
    [|discriminate|done].
  destruct continue; [|discriminate].
  apply IH. apply write_elt_effect in Ew as [Ep Ew].
  rewrite Ep. cbn [st1 pgn].
  destruct Ew as [(? & _)|(_ & _ & [[Ei _]|(? & _ & _ & Ei & _)])];
    [discriminate| |]; rewrite Ei; cbn [st1 game_index]; lia.
Qed.

(** C3, as the code has it. [write_game] always returns. An [end-variation]
    element reached while the variation stack is empty makes it raise
    [IndexError], after the closing delimiter has been written. When
    [write_game] ends without an exception, the depth of the stack has grown
    by the number of [start-variation] elements and shrunk by the number of
    [end-variation] elements among the elements before the first [end]
    element: started with an empty stack, there are at least as many
    [start-variation] as [end-variation] elements, and nothing requires that
    there be as many. *)
Theorem write_game_variation_balance (st : PGN2PDF) :
  let elts := processed (drop (game_index st) (game (pgn st))) in
  ((exists e, fst (write_game st) = Raise e)
   \/ (fst (write_game st) = Ok tt
       /\ length (variation_stack (tex (snd (write_game st))))
          + count_name "end-variation" elts
          = length (variation_stack (tex st))
            + count_name "start-variation" elts))
  /\ (forall hs before t after o n,
        write_game
          (MkPGN2PDF
             (MkPGNParser hs (before ++ PGNElt "end-variation" t :: after))
             (length before) (MkTEXWriter o n []))
        = (Raise IndexError,
           MkPGN2PDF
             (MkPGNParser hs (before ++ PGNElt "end-variation" t :: after))
             (S (length before)) (MkTEXWriter (o ++ line_out ")") n []))).
Proof.
  split.
  - unfold write_game.
    pose proof (write_game_loop_returns
                  (length (game (pgn st)) - game_index st) st) as Hret.
    destruct (write_game_loop _ st) as [[[]| |] st'] eqn:Hrun.
    + right. split; [reflexivity|].
      by apply write_game_loop_balance in Hrun.
    + left. eauto.
    + exfalso. by apply Hret.
  - intros hs before t after o n. unfold write_game.
    cbn [pgn game game_index]. rewrite length_app. cbn [length].
    replace (length before + S (length after) - length before)
      with (S (length after)) by lia.
    cbn [write_game_loop pgn game game_index].
    rewrite length_app. cbn [length].
    destruct (Nat.ltb_spec (length before) (length before + S (length after)));
      [|lia].
    rewrite bind_run, current_elt_run. cbn [pgn game game_index].
    rewrite list_lookup_middle by reflexivity.
    reflexivity.
Qed.

(** ** The end-to-end scenario *)

(** C8. On the input with the headers White, Black and Result 1-0 and the
    movetext 1. e4 e5 2. Nf3, a comment A solid reply., 1-0, the parser gives
    one run of moves, the comment, the result and the final [end] element,
    and the document is, in this order: the preamble, the title, one mainline
    command with the text of the run, the comment as a paragraph, the result
    as a paragraph, and the closing marker. *)
Theorem pgn2tex_scenario :
  PGNParser_init scenario_pgn =
    Ok (MkPGNParser (collect_headers scenario_headers)
                    [ PGNElt "moves" "1. e4 e5 2. Nf3";
                      PGNElt "comment" "A solid reply.";
                      PGNElt "result" "1-0";
                      PGNElt "end" "" ])
  /\ pgn2tex scenario_pgn =
     (Ok tt,
      preamble_out
      ++ line_out "\section{Smith - Doe}"
      ++ line_out "\mainline { 1. e4 e5 2. Nf3 }"
      ++ paragraph_out "A solid reply."
      ++ paragraph_out "1-0"
      ++ closing_out).
Proof.
  split; vm_compute; reflexivity.
Qed.

(** ** More on the tokenizer and the aggregator *)

Lemma parse_game_step_done s : parse_game_step s = Done <-> lstrip s = "".
Proof.
  unfold parse_game_step. destruct (lstrip s) as [|c t]; [done|].
  split; [|discriminate].
  destruct (try_regexes _ _) as [[? ?]|]; [discriminate|].
  destruct (split_ws1 _) as [|? [|? [|]]]; discriminate.
Qed.

Lemma parse_game_tokenizes s game :
  parse_game (Some s) = Ok game -> tokenizes s game.
Proof.
  intros Hrun. unfold parse_game in Hrun.
  destruct (parse_game_loop_total (String.length s) [] s)
    as [(game' & Hrun' & Htok)|[msg Hrun']]; [lia| |congruence].
  rewrite Hrun' in Hrun. by injection Hrun as <-.
Qed.

(** X1. Blank movetext: [parse_game] returns the empty element sequence
    exactly on the texts made of whitespace only (the empty text among
    them). *)
Theorem parse_game_blank (s : string) :
  parse_game (Some s) = Ok [] <-> lstrip s = "".
Proof.
  split.
  - intros Hrun%parse_game_tokenizes. inversion Hrun; subst.
    by apply parse_game_step_done.
  - intros Hs%parse_game_step_done. unfold parse_game.
    destruct (String.length s); simpl; by rewrite Hs.
Qed.

(** X2. The tokenizer never ends on a move: when [parse_game] returns a
    sequence, its last element is not a [move] element. The [move] branch
    unpacks a split in two, which raises when the move is the last token. *)
Theorem parse_game_last_not_move (s : string) (game : list PGNElement)
  (elt : PGNElement) :
  parse_game (Some s) = Ok game ->
  last game = Some elt ->
  name elt <> "move".
Proof.
  intros Htok%parse_game_tokenizes%tokenizes_last Hlast Hname.
  rewrite Hlast in Htok. unfold is_move in Htok.
  rewrite Hname in Htok. discriminate.
Qed.

Lemma combine_moves_loop_others (keep : PGNElement -> bool)
  current_moves new_game game :
  (forall elt, keep elt = true -> is_move elt = false) ->
  (forall t, keep (PGNElt "moves" t) = false) ->
  List.filter keep (combine_moves_loop current_moves new_game game)
  = List.filter keep new_game ++ List.filter keep game.
Proof.
  intros Hkeep Hmoves. revert current_moves new_game.
  induction game as [|elt game IH]; intros cur acc;
    cbn [combine_moves_loop List.filter]; [by rewrite app_nil_r|].
  fold (is_move elt). destruct (is_move elt) eqn:Em.
  - rewrite IH. destruct (keep elt) eqn:Ek; [|reflexivity].
    apply Hkeep in Ek. congruence.
  - destruct cur as [|m cur]; rewrite IH, !List.filter_app;
      cbn [List.filter]; rewrite ?Hmoves, ?app_nil_r, <- ?app_assoc;
      by destruct (keep elt).
Qed.

(** X3. Elements other than moves pass the aggregator unchanged and in order:
    leaving aside the elements named [move] and [moves], the output of
    [combine_moves] is its input. *)
Theorem combine_moves_keeps_others (game : list PGNElement) :
  let other elt :=
    negb (String.eqb (name elt) "move") && negb (String.eqb (name elt) "moves")
  in
  List.filter other (combine_moves game) = List.filter other game.
Proof.
  intros other. unfold combine_moves.
  rewrite (combine_moves_loop_others other); [reflexivity| |done].
  intros elt. unfold other, is_move.
  by destruct (String.eqb (name elt) "move").
Qed.

(** X4. On every sequence the tokenizer returns, [combine_moves] is the
    aggregator that also emits the run buffered when the sequence ends: no
    move that was tokenized is dropped. *)
Theorem combine_moves_on_parsed (s : string) (game : list PGNElement) :
  parse_game (Some s) = Ok game -> combine_moves game = aggregate game.
Proof.
  intros Htok%parse_game_tokenizes%tokenizes_last.
  by apply combine_moves_aggregate.
Qed.

(** Membership of a given name in a list of names written out. *)
Ltac name_in_list :=
  repeat first [apply list_elem_of_here | apply list_elem_of_further].

Lemma try_regexes_name s elt s' :
  try_regexes game_regexes s = Some (elt, s') ->
  name elt ∈ ["comment"; "start-variation"; "end-variation"; "evaluation";
              "result"].
Proof.
  unfold game_regexes. cbn [try_regexes].
  repeat (match goal with
          | |- context [match ?r s with _ => _ end] => destruct (r s)
          end; [intros [= <- _]; cbn [name]; name_in_list|]).
  discriminate.
Qed.

Lemma tokenizes_names s game :
  tokenizes s game ->
  Forall (fun elt => is_move elt = true \/ name elt ∈ generator_names) game.
Proof.
  induction 1 as [s Hdone|s elt s' game Hstep Htok IH]; constructor;
    [|exact IH].
  unfold parse_game_step in Hstep.
  destruct (lstrip s) as [|c t]; [discriminate|].
  destruct (try_regexes game_regexes (String c t)) as [[e r]|] eqn:Ht.
  - injection Hstep as <- _. right. apply try_regexes_name in Ht.
    unfold generator_names.
    repeat (apply elem_of_cons in Ht as [->|Ht]; [name_in_list|]).
    by apply elem_of_nil in Ht.
  - destruct (split_ws1 (String c t)) as [|w [|r [|]]]; try discriminate.
    injection Hstep as <- _. by left.
Qed.

Lemma combine_moves_loop_Forall (Q : PGNElement -> Prop)
  current_moves new_game game :
  (forall t, Q (PGNElt "moves" t)) ->
  Forall Q new_game ->
  Forall (fun elt => is_move elt = true \/ Q elt) game ->
  Forall Q (combine_moves_loop current_moves new_game game).
Proof.
  intros Hmoves Hacc Hgame. revert current_moves new_game Hacc.
  induction Hgame as [|elt game Helt _ IH]; intros cur acc Hacc;
    cbn [combine_moves_loop]; [exact Hacc|].
  fold (is_move elt). destruct (is_move elt) eqn:Em; [by apply IH|].
  destruct Helt as [?|Helt]; [congruence|].
  destruct cur; apply IH; repeat (apply Forall_app; split);
    auto; by repeat constructor.
Qed.

Lemma processed_app_end game :
  Forall (fun elt => name elt ∈ generator_names) game ->
  processed (game ++ [PGNElt "end" ""]) = game.
Proof.
  induction 1 as [|elt game Helt _ IH]; [reflexivity|].
  cbn [app processed]. rewrite IH.
  destruct (String.eqb_spec (name elt) "end") as [Hn|_]; [|reflexivity].
  rewrite Hn in Helt. unfold generator_names in Helt.
  repeat (apply elem_of_cons in Helt as [Helt|Helt]; [discriminate|]).
  by apply elem_of_nil in Helt.
Qed.

(** X5. What the parser hands to the generator: when [PGNParser] is built
    without error, its game is a sequence of elements whose names all have a
    branch in [write_game], followed by the one [end] element; so the
    generator gets to every element before the sentinel. *)
Theorem PGNParser_init_game (content : string) (p : PGNParser) :
  PGNParser_init content = Ok p ->
  exists elts,
    game p = elts ++ [PGNElt "end" ""]
    /\ Forall (fun elt => name elt ∈ generator_names) elts
    /\ processed (game p) = elts.
Proof.
  unfold PGNParser_init.
  destruct (parse_headers content) as [[hs body]| |]; try discriminate.
  cbn [mbind outcome_bind].
  destruct (parse_game body) as [raw| |] eqn:Hraw; try discriminate.
  cbn [mbind outcome_bind]. intros [= <-]. cbn [game].
  assert (Forall (fun elt => name elt ∈ generator_names) (combine_moves raw))
    as Hnames.
  { destruct body as [s|]; [|discriminate].
    apply combine_moves_loop_Forall; [|constructor|].
    - intros t. unfold generator_names. cbn [name]. name_in_list.
    - apply (tokenizes_names s). by apply parse_game_tokenizes. }
  exists (combine_moves raw). split; [reflexivity|]. split; [exact Hnames|].
  by apply processed_app_end.
Qed.

(** ** More on the header parser *)

Lemma append_assoc_s a b c : (a +:+ b) +:+ c = a +:+ (b +:+ c).
Proof.
  induction a as [|x a IH]; [reflexivity|].
  by rewrite !append_String, IH.
Qed.

Lemma span_spec p s a r :
  span p s = (a, r) ->
  s = a +:+ r
  /\ all_chars p a = true
  /\ match r with "" => True | String c _ => p c = false end.
Proof.
  revert a r. induction s as [|c s IH]; intros a r; cbn [span].
  - by intros [= <- <-].
  - destruct (p c) eqn:Ec.
    + destruct (span p s) as [a' r']. intros [= <- <-].
      destruct (IH a' r' eq_refl) as (-> & Ha & Hr).
      cbn [all_chars]. by rewrite Ec, Ha.
    + intros [= <- <-]. by rewrite Ec.
Qed.

Lemma span_append p a r :
  all_chars p a = true ->
  match r with "" => True | String c _ => p c = false end ->
  span p (a +:+ r) = (a, r).
Proof.
  intros Ha Hr. induction a as [|c a IH].
  - destruct r as [|c r]; [reflexivity|].
    change (span p (String c r) = ("", String c r)). cbn [span].
    by rewrite Hr.
  - cbn [all_chars] in Ha. apply andb_true_iff in Ha as [Hc Ha].
    rewrite append_String. cbn [span]. by rewrite Hc, IH.
Qed.

Lemma header_line_append key value trailing :
  header_line key value +:+ trailing
  = String "["%char
      (key +:+ String " "%char
         (String dquote (value +:+ String dquote (String "]"%char trailing)))).
Proof.
  unfold header_line.
  change (String "["%char
            ((key +:+ " " +:+ String dquote (value +:+ String dquote "]"))
             +:+ trailing) = String "["%char
            (key +:+ String " "%char
               (String dquote
                  (value +:+ String dquote (String "]"%char trailing))))).
  f_equal. rewrite append_assoc_s. f_equal.
  change (String " "%char
            (String dquote ((value +:+ String dquote "]") +:+ trailing))
          = String " "%char
              (String dquote
                 (value +:+ String dquote (String "]"%char trailing)))).
  do 2 f_equal. by rewrite append_assoc_s.
Qed.

Lemma header_re_inv line key value trailing :
  header_re line = Some (ReMatch [key; value] trailing) ->
  exists indent,
    line = indent +:+ header_line key value +:+ trailing
    /\ all_chars (Ascii.eqb " "%char) indent = true
    /\ key <> ""
    /\ all_chars (fun c => negb (Ascii.eqb c " "%char)) key = true
    /\ value <> ""
    /\ all_chars (fun c => negb (Ascii.eqb c dquote)) value = true.
Proof.
  unfold header_re. destruct (span _ line) as [indent r0] eqn:E0.
  cbn [snd]. intros H.
  repeat case_match; simplify_eq.
  repeat match goal with
         | H : span _ _ = _ |- _ => apply span_spec in H as (-> & ? & ?)
         | H : Ascii.eqb _ _ = true |- _ => apply Ascii.eqb_eq in H as ->
         end.
  exists indent. rewrite header_line_append. by repeat split.
Qed.

Lemma header_re_intro indent key value trailing :
  all_chars (Ascii.eqb " "%char) indent = true ->
  key <> "" ->
  all_chars (fun c => negb (Ascii.eqb c " "%char)) key = true ->
  value <> "" ->
  all_chars (fun c => negb (Ascii.eqb c dquote)) value = true ->
  header_re (indent +:+ header_line key value +:+ trailing)
  = Some (ReMatch [key; value] trailing).
Proof.
  intros Hindent Hkey Hk Hvalue Hv.
  rewrite header_line_append. unfold header_re.
  rewrite (span_append _ indent) by done. cbn [snd].
  rewrite (span_append _ key) by done.
  destruct key as [|k0 key]; [done|].
  rewrite Ascii.eqb_refl.
  rewrite (span_append _ value)
    by (try done; cbn; by rewrite Ascii.eqb_refl).
  destruct value as [|v0 value]; [done|].
  by rewrite Ascii.eqb_refl.
Qed.

(** X6. The header pattern and the header syntax: [header_re] matches a line
    with the groups [key] and [value], leaving [trailing] after the match,
    exactly when the line is some spaces, then the bracketed [key], one
    space and the quoted [value], then [trailing], where [key] is not empty
    and has no space and [value] is not empty and has no double quote.
    Spaces before the bracket and anything after the closing bracket are
    accepted. *)
Theorem header_re_header_line (line key value trailing : string) :
  header_re line = Some (ReMatch [key; value] trailing)
  <-> exists indent,
        line = indent +:+ header_line key value +:+ trailing
        /\ all_chars (Ascii.eqb " "%char) indent = true
        /\ key <> ""
        /\ all_chars (fun c => negb (Ascii.eqb c " "%char)) key = true
        /\ value <> ""
        /\ all_chars (fun c => negb (Ascii.eqb c dquote)) value = true.
Proof.
  split; [apply header_re_inv|].
  intros (indent & -> & ? & ? & ? & ? & ?). by apply header_re_intro.
Qed.

(** X7. The last header line wins: when the lines before the blank line all
    match and the last of them stands for the entry [key], [value] (its key
    lower-cased), the parser returns a dictionary in which [key] is bound to
    [value], whatever earlier lines bound it to. *)
Theorem parse_headers_lookup_last (content : string)
  (pre post : list string) (line blank key value : string) :
  split_on nl content = pre ++ line :: blank :: post ->
  Forall (fun l => strip l <> "" /\ is_Some (header_re l)) (pre ++ [line]) ->
  strip blank = "" ->
  header_entry line = Some (key, value) ->
  exists hs,
    parse_headers content = Ok (hs, Some (join NL post))
    /\ hs !! key = Some value.
Proof.
  intros Hsplit [Hblank Hmatch]%Forall_and Hb Hentry.
  exists (collect_headers (pre ++ [line])). split.
  - unfold parse_headers. rewrite Hsplit.
    change (pre ++ line :: blank :: post)
      with (pre ++ [line] ++ blank :: post).
    rewrite app_assoc, parse_headers_loop_app by assumption.
    cbn [parse_headers_loop]. by rewrite Hb.
  - unfold collect_headers. rewrite foldl_app. cbn [foldl].
    unfold insert_header at 1. rewrite Hentry. apply lookup_insert_eq.
Qed.

(** ** More on the TeX writer *)

Lemma pyformat_plain_char c template args :
  Ascii.eqb c "%"%char = false ->
  pyformat (String c template) args
  = (r ← pyformat template args; Ok (String c r)).
Proof.
  destruct c as [[] [] [] [] [] [] [] []]; intros Hc;
    try discriminate Hc; reflexivity.
Qed.

Lemma pyformat_no_percent line :
  all_chars (fun c => negb (Ascii.eqb c "%"%char)) line = true ->
  pyformat line [] = Ok line.
Proof.
  induction line as [|c line IH]; [reflexivity|]. intros Hline.
  cbn [all_chars] in Hline. apply andb_true_iff in Hline as [Hc Hline].
  apply negb_true_iff in Hc.
  rewrite (pyformat_plain_char _ _ _ Hc), (IH Hline). reflexivity.
Qed.

(** X8. Text without a percent sign is written as it is: formatted with no
    argument it is unchanged, so [write] hands it to the file and cannot
    raise; formatted with an argument left over it raises [TypeError]. *)
Theorem write_verbatim (line : string) :
  all_chars (fun c => negb (Ascii.eqb c "%"%char)) line = true ->
  pyformat line [] = Ok line
  /\ (forall a args, pyformat line (a :: args) = Raise TypeError)
  /\ (forall paragraph trailing_newline w,
        write line [] paragraph trailing_newline w
        = (Ok tt, with_out w (write_out line paragraph trailing_newline))).
Proof.
  intros Hline.
  pose proof (pyformat_no_percent line Hline) as Hfmt.
  split; [exact Hfmt|]. split.
  - intros a args. clear Hfmt. induction line as [|c line IH]; [reflexivity|].
    cbn [all_chars] in Hline. apply andb_true_iff in Hline as [Hc Hline].
    apply negb_true_iff in Hc.
    rewrite (pyformat_plain_char _ _ _ Hc), (IH Hline). reflexivity.
  - intros paragraph trailing_newline w. by rewrite write_run, Hfmt.
Qed.

Lemma pyformat_var a : pyformat "var%s" [a] = Ok ("var" +:+ a).
Proof.
  change (pyformat "var%s" [a]) with (@Ok string ("var" +:+ (a +:+ ""))).
  by rewrite append_empty_r.
Qed.

(** X9. The commands that carry a text never fail and carry it unchanged:
    the title, the board position and the moves are arguments of the
    template, so a percent sign in them is not a conversion. *)
Theorem write_commands_verbatim (arg : string) (w : TEXWriter) :
  write_title arg w
    = (Ok tt, with_out w (line_out ("\section{" +:+ arg +:+ "}")))
  /\ setup_board arg w
    = (Ok tt, with_out w (line_out ("\fenboard{" +:+ arg +:+ "}")))
  /\ write_moves arg w
    = (Ok tt, with_out w (line_out ("\mainline { " +:+ arg +:+ " }")))
  /\ make_diagram w = (Ok tt, with_out w (paragraph_out "\chessboard")).
Proof.
  unfold write_title, setup_board, write_moves, make_diagram.
  rewrite !write_run. repeat split; reflexivity.
Qed.

Lemma start_variation_run w : start_variation w = (Ok tt, started w).
Proof.
  unfold start_variation. rewrite bind_run. cbn [next_variation].
  rewrite bind_run. unfold lift at 1. rewrite pyformat_var.
  rewrite bind_run. cbn [cur_var]. rewrite bind_run, write_run.
  reflexivity.
Qed.

Lemma end_variation_run w :
  end_variation w =
  match variation_stack w with
  | [] => (Raise IndexError, w)
  | _ :: _ => (Ok tt, ended w)
  end.
Proof.
  unfold end_variation. rewrite bind_run. unfold pop_variation.
  destruct (variation_stack w) as [|v stack] eqn:Es; [reflexivity|].
  rewrite bind_run. cbn [cur_var]. rewrite !bind_run, write_run.
  unfold ended. rewrite Es. reflexivity.
Qed.

(** X10. Opening a variation never fails: [start_variation] writes the
    command that names the parent (the top of the stack, or main) and the
    new identifier, made of var and the counter in decimal, pushes that
    identifier, which becomes the current variation, and counts one more. *)
Theorem start_variation_never_fails (w : TEXWriter) :
  let var := var_name (variation_counter w) in
  let parent := List.last (variation_stack w) "main" in
  exists w',
    start_variation w = (Ok tt, w')
    /\ out w'
       = out w ++ line_out ("\newchessgame[newvar=" +:+ parent
                            +:+ ", id=" +:+ var +:+ "]")
    /\ variation_stack w' = variation_stack w ++ [var]
    /\ variation_counter w' = S (variation_counter w)
    /\ fst (cur_var w') = Ok var.
Proof.
  exists (started w). rewrite start_variation_run.
  repeat split. cbn [cur_var fst started variation_stack].
  by rewrite last_last.
Qed.

(** X11. Closing a variation: on an empty stack [end_variation] raises
    [IndexError] and leaves the writer untouched; otherwise it never fails,
    pops the stack and writes the command that resumes the new top of the
    stack, or main, with one more newline exactly when the stack is now
    empty. *)
Theorem end_variation_cases (w : TEXWriter) :
  (variation_stack w = [] -> end_variation w = (Raise IndexError, w))
  /\ (forall stack var,
        variation_stack w = stack ++ [var] ->
        end_variation w
        = (Ok tt,
           MkTEXWriter
             (out w
              ++ write_out ("\resumechessgame[id="
                            +:+ List.last stack "main" +:+ "]")
                   false (Nat.eqb (length stack) 0))
             (variation_counter w) stack)).
Proof.
  rewrite end_variation_run. split.
  - by intros ->.
  - intros stack var Hs. unfold ended. rewrite Hs, removelast_last.
    by destruct stack.
Qed.

(** X12. Opening and closing undo each other on the stack: a variation
    opened and closed at once leaves the stack as it was, and the command
    written at the close resumes the variation that was current before. *)
Theorem start_end_variation_restores (w : TEXWriter) :
  let parent := List.last (variation_stack w) "main" in
  exists w',
    (start_variation;; end_variation) w = (Ok tt, w')
    /\ variation_stack w' = variation_stack w
    /\ variation_counter w' = S (variation_counter w)
    /\ out w'
       = out w
         ++ line_out ("\newchessgame[newvar=" +:+ parent +:+ ", id="
                      +:+ var_name (variation_counter w) +:+ "]")
         ++ write_out ("\resumechessgame[id=" +:+ parent +:+ "]")
              false (Nat.eqb (length (variation_stack w)) 0).
Proof.
  exists (ended (started w)).
  rewrite bind_run, start_variation_run, end_variation_run.
  assert (removelast (variation_stack (started w)) = variation_stack w)
    as Hpop by apply removelast_last.
  split.
  { cbn [started variation_stack].
    by destruct (variation_stack w ++ _) eqn:E;
      [apply app_eq_nil in E as [_ [=]]|]. }
  unfold ended. rewrite Hpop. cbn [variation_stack variation_counter out].
  repeat split. cbn [started out]. by rewrite <- app_assoc.
Qed.

Lemma with_out_app w more1 more2 :
  with_out (with_out w more1) more2 = with_out w (more1 ++ more2).
Proof. unfold with_out. cbn. by rewrite app_assoc. Qed.

Lemma start_run w : start w = (Ok tt, with_out w preamble_out).
Proof.
  transitivity
    (Ok tt,
     with_out
       (with_out
          (with_out
             (with_out
                (with_out
                   (with_out w (line_out "\documentclass[a4paper]{article}"))
                   (line_out "\usepackage{xskak}"))
                (line_out "\setlength{\parskip}{1em}"))
             (line_out "\begin{document}"))
          (line_out ""))
       (line_out "\newchessgame[id=main]")); [reflexivity|].
  by rewrite !with_out_app.
Qed.

Lemma end_run w : end_ w = (Ok tt, with_out w closing_out).
Proof.
  transitivity
    (Ok tt,
     with_out (with_out w (line_out "")) (line_out "\end{document}"));
    [reflexivity|].
  by rewrite !with_out_app.
Qed.

(** ** Properties kept by the generator *)

Section Closed.

Variable P : PGN2PDF -> Prop.
Hypothesis HP : closed P.

Lemma preserves_ret {A : Type} (x : A) : preserves P (mret x).
Proof. by intros st. Qed.

Lemma preserves_bind {A B : Type} (m : state PGN2PDF A)
  (f : A -> state PGN2PDF B) :
  preserves P m -> (forall x, preserves P (f x)) -> preserves P (m ≫= f).
Proof.
  intros Hm Hf st Hst. rewrite bind_run. specialize (Hm st Hst).
  destruct (m st) as [[x| |] st1]; [by apply Hf|done|done].
Qed.

Lemma preserves_lift {A : Type} (o : outcome A) : preserves P (lift o).
Proof. by intros st. Qed.

Lemma preserves_write line args paragraph trailing_newline :
  preserves P (on_tex (write line args paragraph trailing_newline)).
Proof.
  intros st Hst. rewrite on_tex_write_run.
  destruct (pyformat line args); [by apply closed_emit|done|done].
Qed.

Lemma preserves_start_variation : preserves P (on_tex start_variation).
Proof.
  intros st Hst. rewrite on_tex_run, start_variation_run.
  by apply closed_started.
Qed.

Lemma preserves_end_variation : preserves P (on_tex end_variation).
Proof.
  intros st Hst. rewrite on_tex_run, end_variation_run.
  destruct (variation_stack (tex st)) eqn:Es.
  - by destruct st.
  - apply (closed_ended P HP); [done|]. by rewrite Es.
Qed.

Lemma preserves_write_comment_lines lines :
  preserves P (write_comment_lines lines).
Proof.
  induction lines as [|line lines IH]; [apply preserves_ret|].
  cbn [write_comment_lines]. destruct (strip line); [exact IH|].
  apply preserves_bind; [apply preserves_write|intros _; exact IH].
Qed.

Lemma preserves_parse_comment text : preserves P (parse_comment text).
Proof.
  destruct text as [|c r]; [by intros st|].
  destruct (islower c) eqn:Hc.
  { unfold parse_comment. rewrite Hc. apply preserves_write. }
  intros st Hst. rewrite parse_comment_paragraph by exact Hc.
  rewrite bind_run, current_elt_run.
  destruct (game (pgn st) !! game_index st) as [next|] eqn:Hnext; [|done].
  apply lookup_lt_Some in Hnext.
  assert (preserves P (comment_paragraphs (String c r))) as Hpar.
  { unfold comment_paragraphs. apply preserves_bind.
    - destruct (startswith _ _); [apply preserves_write|apply preserves_ret].
    - intros _. unfold write_paragraphs.
      induction (paragraph_lines _) as [|l ls IH]; [apply preserves_ret|].
      cbn [foldr]. apply preserves_bind; [apply preserves_write|by intros _]. }
  destruct (String.eqb (name next) "end-variation").
  - set (st1 := MkPGN2PDF (pgn st) (S (game_index st))
                          (with_out (tex st) (line_out ")"))).
    change (P (snd ((comment_paragraphs (String c r);;
                     on_tex end_variation;;
                     on_tex (write "" [] false false)) st1))).
    apply preserves_bind; [exact Hpar|intros _|].
    + apply preserves_bind;
        [apply preserves_end_variation|intros _; apply preserves_write].
    + apply (closed_advance P HP (emit st (line_out ")")));
        [by apply closed_emit|exact Hnext].
  - change (P (snd ((comment_paragraphs (String c r);; mret tt) st))).
    apply preserves_bind; [exact Hpar|intros _; apply preserves_ret|exact Hst].
Qed.

Lemma preserves_write_elt elt : preserves P (write_elt elt).
Proof.
  unfold write_elt.
  repeat (destruct (String.eqb (name elt) _));
    repeat (apply preserves_bind; [|intros ?]);
    try apply preserves_ret; try apply preserves_lift;
    try apply preserves_parse_comment; try apply preserves_write;
    try apply preserves_start_variation; try apply preserves_end_variation.
Qed.

Lemma preserves_write_game_loop fuel : preserves P (write_game_loop fuel).
Proof.
  induction fuel as [|fuel IH]; intros st Hst; cbn [write_game_loop];
    destruct (Nat.ltb_spec (game_index st) (length (game (pgn st))))
      as [Hlt|Hge]; try done.
  rewrite bind_run, current_elt_run.
  destruct (game (pgn st) !! game_index st) as [elt|]; [|done].
  rewrite bind_run. cbn [advance_game_index].
  apply (preserves_bind (write_elt elt)
           (fun continue : bool =>
              if continue then write_game_loop fuel else mret tt)).
  - apply preserves_write_elt.
  - intros []; [exact IH|apply preserves_ret].
  - by apply closed_advance.
Qed.

Lemma preserves_write_game : preserves P write_game.
Proof. intros st. apply preserves_write_game_loop. Qed.

Lemma preserves_make_title : preserves P make_title.
Proof.
  assert (forall color, preserves P (make_name color)) as Hname.
  { intros color st Hst. unfold make_name.
    by destruct (headers (pgn st) !! color). }
  unfold make_title.
  repeat (apply preserves_bind; [|intros ?]);
    try apply Hname; try apply preserves_lift; try (by intros st).
  repeat case_match; repeat (apply preserves_bind; [|intros ?]);
    try apply preserves_ret; apply preserves_lift.
Qed.

Lemma preserves_convert : preserves P convert.
Proof.
  unfold convert.
  apply preserves_bind; [|intros _].
  { intros st Hst. rewrite on_tex_run, start_run.
    exact (closed_emit P HP st preamble_out Hst). }
  apply preserves_bind; [apply preserves_make_title|intros title].
  apply preserves_bind; [apply preserves_write|intros _].
  apply preserves_bind; [by intros st|intros hs].
  apply preserves_bind; [|intros _].
  { destruct (hs !! "fen"); [|apply preserves_ret].
    apply preserves_bind; [|intros _]; apply preserves_write. }
  apply preserves_bind; [apply preserves_write_game|intros _].
  intros st Hst. rewrite on_tex_run, end_run.
  exact (closed_emit P HP st closing_out Hst).
Qed.

End Closed.

Lemma closed_cursor (p : PGNParser) (i : nat) :
  closed (fun st =>
            pgn st = p /\ i <= game_index st
            /\ game_index st <= length (game p)).
Proof.
  split.
  - by intros [? ? ?] more.
  - intros [? ? ?]; cbn. intros (-> & ? & ?) ?. repeat split; lia.
  - by intros [? ? ?].
  - by intros [? ? ?].
Qed.

Lemma closed_prefix (o : list string) :
  closed (fun st => o `prefix_of` out (tex st)).
Proof.
  split.
  - intros st more H. by apply prefix_app_r.
  - by intros st.
  - intros st H. by apply prefix_app_r.
  - intros st H _. by apply prefix_app_r.
Qed.

Lemma str_of_nat_inj n m : str_of_nat n = str_of_nat m -> n = m.
Proof.
  unfold str_of_nat. intros H. apply DecimalNat.Unsigned.to_uint_inj.
  apply (f_equal NilEmpty.uint_of_string) in H.
  rewrite !NilEmpty.usu in H. by injection H.
Qed.

Lemma var_name_inj n m : var_name n = var_name m -> n = m.
Proof. unfold var_name. intros [= H]. by apply str_of_nat_inj. Qed.

Lemma closed_fresh_ids : closed (fun st => fresh_ids (tex st)).
Proof.
  split.
  - by intros st more.
  - by intros st.
  - intros st (ks & Hs & Hlt & Hnd).
    exists (ks ++ [variation_counter (tex st)]). cbn [tex started
      variation_stack variation_counter]. split; [|split].
    + by rewrite Hs, fmap_app.
    + apply Forall_app. split; [|by repeat constructor].
      eapply Forall_impl; [exact Hlt|]. cbn. lia.
    + apply NoDup_app. split; [exact Hnd|]. split; [|apply NoDup_singleton].
      intros k Hk ->%list_elem_of_singleton.
      rewrite Forall_forall in Hlt. apply Hlt in Hk. lia.
  - intros st (ks & Hs & Hlt & Hnd) Hne.
    destruct ks as [|k0 ks0] using rev_ind; [by rewrite Hs in Hne|].
    clear IHks0. exists ks0. cbn [tex ended variation_stack
      variation_counter]. split; [|split].
    + rewrite Hs, fmap_app. change (var_name <$> [k0]) with [var_name k0].
      apply removelast_last.
    + by apply Forall_app in Hlt as [? _].
    + by apply NoDup_app in Hnd as [? _].
Qed.

(** X13. The cursor and the game: whatever the outcome of [write_game] or
    of [convert], the parsed game and headers are left as they were, and the
    cursor has only moved forward and is still inside the game or just past
    its end. *)
Theorem generator_cursor_bounds (st : PGN2PDF) :
  game_index st <= length (game (pgn st)) ->
  (pgn (snd (write_game st)) = pgn st
   /\ game_index st <= game_index (snd (write_game st))
   /\ game_index (snd (write_game st)) <= length (game (pgn st)))
  /\ (pgn (snd (convert st)) = pgn st
      /\ game_index st <= game_index (snd (convert st))
      /\ game_index (snd (convert st)) <= length (game (pgn st))).
Proof.
  intros Hst. split.
  - apply (preserves_write_game _ (closed_cursor (pgn st) (game_index st))).
    by repeat split.
  - apply (preserves_convert _ (closed_cursor (pgn st) (game_index st))).
    by repeat split.
Qed.

(** X14. Nothing written is taken back: whatever the outcome of
    [write_game] or of [convert], also when it raises, the strings written
    before are still there, as a prefix of what the file holds. *)
Theorem generator_output_grows (st : PGN2PDF) :
  out (tex st) `prefix_of` out (tex (snd (write_game st)))
  /\ out (tex st) `prefix_of` out (tex (snd (convert st))).
Proof.
  split.
  - by apply (preserves_write_game _ (closed_prefix (out (tex st)))).
  - by apply (preserves_convert _ (closed_prefix (out (tex st)))).
Qed.

(** X15. Variation identifiers are never reused: when the identifiers on
    the stack are distinct and made from numbers below the counter, as in a
    new writer, this still holds after [write_game] and after [convert]
    whatever their outcome; and then the identifier the next variation gets
    is not on the stack, and no identifier is on the stack twice. *)
Theorem generator_fresh_ids (st : PGN2PDF) :
  fresh_ids (tex st) ->
  fresh_ids (tex (snd (write_game st)))
  /\ fresh_ids (tex (snd (convert st)))
  /\ (var_name (variation_counter (tex st)) ∉ variation_stack (tex st))
  /\ NoDup (variation_stack (tex st)).
Proof.
  intros Hst. split; [|split].
  - by apply (preserves_write_game _ closed_fresh_ids).
  - by apply (preserves_convert _ closed_fresh_ids).
  - destruct Hst as (ks & -> & Hlt & Hnd). split.
    + intros (k & Hk%var_name_inj & Hin)%list_elem_of_fmap.
      rewrite Forall_forall in Hlt. apply Hlt in Hin. lia.
    + apply NoDup_fmap_2; [|exact Hnd]. intros ? ?. apply var_name_inj.
Qed.


(** ** The document as a whole *)

Lemma bind_ok {S A B : Type} (m : state S A) (f : A -> state S B) st r st' :
  (m ≫= f) st = (Ok r, st') ->
  exists x, m st = (Ok x, snd (m st)) /\ f x (snd (m st)) = (Ok r, st').
Proof.
  rewrite bind_run. destruct (m st) as [[x| |] st1]; try discriminate.
  eauto.
Qed.

(** X16. The frame of the document: whatever the outcome of [convert],
    what it writes starts with the preamble; and when [convert] returns
    without raising, what it wrote ends with the closing marker. *)
Theorem convert_frames_document (st : PGN2PDF) :
  (exists body,
     out (tex (snd (convert st))) = out (tex st) ++ preamble_out ++ body)
  /\ (fst (convert st) = Ok tt ->
      exists body,
        out (tex (snd (convert st)))
        = out (tex st) ++ preamble_out ++ body ++ closing_out).
Proof.
  set (P := fun s : PGN2PDF =>
              (out (tex st) ++ preamble_out) `prefix_of` out (tex s)).
  assert (closed P) as HP by apply closed_prefix.
  assert (P (emit st preamble_out)) as Hstart
    by (exists []; cbn; by rewrite app_nil_r).
  assert (convert st
          = (title ← make_title;
             on_tex (write_title title);;
             hs ← (fun st => (Ok (headers (pgn st)), st));
             match hs !! "fen" with
             | Some fen => on_tex (setup_board fen);; on_tex make_diagram
             | None => mret tt
             end;;
             write_game;;
             on_tex end_) (emit st preamble_out)) as Hconvert.
  { unfold convert. by rewrite bind_run, on_tex_run, start_run. }
  rewrite Hconvert. clear Hconvert. revert Hstart.
  generalize (emit st preamble_out). intros st0 Hst0.
  assert (forall hs : gmap string string,
            preserves P
              (match hs !! "fen" with
               | Some fen => on_tex (setup_board fen);; on_tex make_diagram
               | None => mret tt
               end)) as Hfen.
  { intros hs. destruct (hs !! "fen"); [|by apply preserves_ret].
    apply preserves_bind; [|intros _]; by apply preserves_write. }
  split.
  - assert (P (snd ((title ← make_title;
                     on_tex (write_title title);;
                     hs ← (fun st => (Ok (headers (pgn st)), st));
                     match hs !! "fen" with
                     | Some fen =>
                         on_tex (setup_board fen);; on_tex make_diagram
                     | None => mret tt
                     end;;
                     write_game;;
                     on_tex end_) st0))) as [body Hbody].
    { revert st0 Hst0.
      apply preserves_bind; [apply preserves_make_title|intros title].
      apply preserves_bind; [by apply preserves_write|intros _].
      apply preserves_bind; [by intros s|intros hs].
      apply preserves_bind; [apply Hfen|intros _].
      apply preserves_bind; [by apply preserves_write_game|intros _].
      intros s Hs. rewrite on_tex_run, end_run.
      exact (closed_emit P HP s closing_out Hs). }
    exists body. by rewrite Hbody, <- app_assoc.
  - match goal with
    | |- fst ?run = _ -> _ => destruct run as [r st'] eqn:Hrun
    end.
    cbn [fst snd]. intros ->.
    apply bind_ok in Hrun as (title & _ & Hrun).
    pose proof (preserves_make_title P st0 Hst0) as H1.
    apply bind_ok in Hrun as ([] & _ & Hrun).
    assert (P (snd (on_tex (write_title title) (snd (make_title st0)))))
      as H2
      by exact (preserves_write P HP "\section{%s}" [title] false false
                  _ H1).
    apply bind_ok in Hrun as (hs & _ & Hrun). cbn [snd] in Hrun.
    apply bind_ok in Hrun as ([] & _ & Hrun).
    pose proof (Hfen hs _ H2) as H3.
    apply bind_ok in Hrun as ([] & _ & Hrun).
    pose proof (preserves_write_game P HP _ H3) as [body H4].
    match type of Hrun with
    | on_tex end_ ?s = _ => set (st5 := s) in *
    end.
    rewrite on_tex_run, end_run in Hrun. injection Hrun as <-.
    exists body. cbn [tex out with_out snd].
    by rewrite H4, <- !app_assoc.
Qed.

(** X17. Missing player: without a [white] header [convert] raises
    [KeyError] for [white] when only the preamble has been written; with it
    but without a [black] header it raises [KeyError] for [black] at the
    same point. *)
Theorem convert_missing_player (st : PGN2PDF) :
  (headers (pgn st) !! "white" = None ->
   convert st = (Raise (KeyError "white"), emit st preamble_out))
  /\ (forall white,
        headers (pgn st) !! "white" = Some white ->
        headers (pgn st) !! "black" = None ->
        convert st = (Raise (KeyError "black"), emit st preamble_out)).
Proof.
  assert (forall color, make_name color (emit st preamble_out)
          = match headers (pgn st) !! color with
            | Some v =>
                (Ok (default "" (head (split_on ","%char v))),
                 emit st preamble_out)
            | None => (Raise (KeyError color), emit st preamble_out)
            end) as Hname by reflexivity.
  split.
  - intros Hw. unfold convert.
    rewrite bind_run, on_tex_run, start_run. cbn [fst snd].
    change (MkPGN2PDF (pgn st) (game_index st) (with_out (tex st) preamble_out))
      with (emit st preamble_out).
    unfold make_title. rewrite !bind_run, Hname, Hw. reflexivity.
  - intros white Hw Hb. unfold convert.
    rewrite bind_run, on_tex_run, start_run. cbn [fst snd].
    change (MkPGN2PDF (pgn st) (game_index st) (with_out (tex st) preamble_out))
      with (emit st preamble_out).
    unfold make_title. rewrite !bind_run, Hname, Hw, bind_run, Hname, Hb.
    reflexivity.
Qed.

Lemma head_split_on sep s :
  head (split_on sep s) = Some (before_first sep s).
Proof.
  unfold before_first. induction s as [|c s IH]; [reflexivity|].
  cbn [split_on span]. destruct (Ascii.eqb c sep); [reflexivity|].
  cbn [negb]. destruct (split_on_cons sep s) as (h & t & E).
  rewrite E in *. destruct (span _ s) as [a r]. cbn in *. congruence.
Qed.

Lemma make_title_run st white black :
  headers (pgn st) !! "white" = Some white ->
  headers (pgn st) !! "black" = Some black ->
  make_title st = (Ok (document_title (headers (pgn st)) white black), st).
Proof.
  intros Hw Hb. unfold make_title, document_title.
  rewrite bind_run. unfold make_name at 1. rewrite Hw.
  rewrite bind_run. unfold make_name at 1. rewrite Hb.
  rewrite !head_split_on. cbn [default from_option id].
  rewrite bind_run. unfold lift at 1.
  change (pyformat "%s - %s" [before_first ","%char white;
                              before_first ","%char black])
    with (@Ok string (before_first ","%char white +:+ " - " +:+
                      (before_first ","%char black +:+ ""))).
  rewrite append_empty_r. rewrite bind_run.
  destruct (headers (pgn st) !! "site") as [site|]; [|reflexivity].
  destruct (headers (pgn st) !! "date") as [date|]; [|reflexivity].
  rewrite bind_run. unfold lift at 1. rewrite head_split_on.
  cbn [default from_option id].
  change (pyformat " %s %s" [site; before_first "."%char date])
    with (@Ok string (" " +:+ site +:+ " " +:+
                      (before_first "."%char date +:+ ""))).
  by rewrite append_empty_r.
Qed.

(** X18. The title: with the headers [white] and [black] present,
    [make_title] returns the two names cut at their first comma, joined by a
    hyphen between spaces, followed, when both [site] and [date] are
    present, by the site and by the date cut at its first full stop; it
    changes nothing. *)
Theorem make_title_spec (st : PGN2PDF) (white black : string) :
  headers (pgn st) !! "white" = Some white ->
  headers (pgn st) !! "black" = Some black ->
  let players :=
    before_first ","%char white +:+ " - " +:+ before_first ","%char black in
  make_title st =
  (Ok match headers (pgn st) !! "site", headers (pgn st) !! "date" with
      | Some site, Some date =>
          players +:+ " " +:+ site +:+ " " +:+ before_first "."%char date
      | _, _ => players
      end, st).
Proof.
  intros Hw Hb players. by rewrite (make_title_run st white black).
Qed.

Lemma emit_app st more1 more2 :
  emit (emit st more1) more2 = emit st (more1 ++ more2).
Proof. unfold emit. cbn. by rewrite with_out_app. Qed.

Lemma pgn_emit st more : pgn (emit st more) = pgn st.
Proof. reflexivity. Qed.

Lemma write_out_line line : write_out line false false = line_out line.
Proof. reflexivity. Qed.

Lemma write_out_paragraph line :
  write_out line true false = paragraph_out line.
Proof. reflexivity. Qed.

(** X19. The part of the document that comes from the headers: with the
    headers [white] and [black] present, [convert] is [write_game] followed
    by the closing lines, run on a file that has received the preamble, the
    section title and, when there is a [fen] header, the board position and
    a diagram. *)
Theorem convert_header_part (st : PGN2PDF) (white black : string) :
  headers (pgn st) !! "white" = Some white ->
  headers (pgn st) !! "black" = Some black ->
  convert st =
  (write_game;; on_tex end_)
    (emit st (header_out (headers (pgn st)) white black)).
Proof.
  intros Hw Hb. unfold convert, header_out.
  rewrite bind_run, on_tex_run, start_run. cbn [fst snd].
  change (MkPGN2PDF (pgn st) (game_index st) (with_out (tex st) preamble_out))
    with (emit st preamble_out).
  rewrite bind_run, (make_title_run _ white black) by assumption.
  rewrite pgn_emit, bind_run. unfold write_title, setup_board, make_diagram.
  rewrite on_tex_write_run.
  change (pyformat "\section{%s}"
            [document_title (headers (pgn st)) white black])
    with (@Ok string ("\section{"
                      +:+ document_title (headers (pgn st)) white black
                      +:+ "}")).
  cbv beta iota. rewrite emit_app, write_out_line, bind_run.
  cbv beta iota. rewrite pgn_emit.
  destruct (headers (pgn st) !! "fen") as [fen|].
  - rewrite !bind_run, on_tex_write_run.
    change (pyformat "\fenboard{%s}" [fen])
      with (@Ok string ("\fenboard{" +:+ fen +:+ "}")).
    cbv beta iota. rewrite on_tex_write_run.
    change (pyformat "\chessboard" []) with (@Ok string "\chessboard").
    cbv beta iota.
    by rewrite !emit_app, write_out_line, write_out_paragraph, <- !app_assoc.
  - rewrite bind_run. cbn [mret state_ret]. cbv beta iota.
    by rewrite app_nil_r.
Qed.

(** ** What the tokenizer puts in an element *)

Lemma until_char_spec stop s a r :
  until_char stop s = Some (a, r) ->
  all_chars (fun c => negb (Ascii.eqb c stop)) a = true.
Proof.
  revert a r. induction s as [|c s IH]; intros a r; cbn [until_char];
    [discriminate|].
  destruct (Ascii.eqb c stop) eqn:Ec; [by intros [= <- _]|].
  destruct (until_char stop s) as [[a' r']|]; [|discriminate].
  intros [= <- _]. cbn [all_chars]. by rewrite Ec, (IH a' r').
Qed.

Lemma take_class_spec p n s a r :
  take_class p n s = (a, r) ->
  all_chars p a = true /\ String.length a <= n.
Proof.
  revert s a r. induction n as [|n IH]; intros [|c s] a r; cbn [take_class];
    try (intros [= <- _]; cbn; split; [done|lia]).
  destruct (p c) eqn:Ec; [|intros [= <- _]; cbn; split; [done|lia]].
  destruct (take_class p n s) as [a' r'] eqn:E. intros [= <- _].
  destruct (IH s a' r' E) as [Ha Hn]. cbn. rewrite Ec, Ha. split; [done|lia].
Qed.

Lemma comment_re_groups s m :
  comment_re s = Some m ->
  exists g,
    groups m = [g]
    /\ all_chars (fun c => negb (Ascii.eqb c "}"%char)) g = true.
Proof.
  unfold comment_re. intros H. repeat case_match; simplify_eq.
  eexists. split; [reflexivity|]. by eapply until_char_spec.
Qed.

Lemma variation_re_groups s m :
  start_variation_re s = Some m \/ end_variation_re s = Some m ->
  groups m = [].
Proof.
  unfold start_variation_re, end_variation_re.
  intros [H|H]; repeat case_match; by simplify_eq.
Qed.

Lemma evaluation_re_groups s m :
  evaluation_re s = Some m ->
  exists c g,
    groups m = [String c g]
    /\ String.length (String c g) <= 3
    /\ all_chars evaluation_char (String c g) = true.
Proof.
  unfold evaluation_re. intros H.
  destruct (take_class evaluation_char 3 s) as [g r] eqn:Et.
  apply take_class_spec in Et as [Hg Hlen].
  destruct g as [|c g]; [discriminate|]. injection H as <-. eauto.
Qed.

Lemma result_re_groups s m :
  result_re s = Some m ->
  groups m = ["1-0"] \/ groups m = ["0-1"] \/ groups m = ["1/2-1/2"].
Proof.
  unfold result_re. intros H. repeat case_match; simplify_eq; auto.
Qed.

Lemma try_regexes_token_ok s elt s' :
  try_regexes game_regexes s = Some (elt, s') -> token_ok elt = true.
Proof.
  unfold game_regexes. cbn [try_regexes].
  destruct (comment_re s) as [m|] eqn:E1.
  { intros [= <- _]. apply comment_re_groups in E1 as (g & Hg & Hall).
    unfold group. by rewrite Hg. }
  destruct (start_variation_re s) as [m|] eqn:E2.
  { intros [= <- _]. unfold group.
    by rewrite (variation_re_groups s m (or_introl E2)). }
  destruct (end_variation_re s) as [m|] eqn:E3.
  { intros [= <- _]. unfold group.
    by rewrite (variation_re_groups s m (or_intror E3)). }
  destruct (evaluation_re s) as [m|] eqn:E4.
  { intros [= <- _].
    apply evaluation_re_groups in E4 as (c & g & Hg & Hlen & Hall).
    unfold group. rewrite Hg. apply Nat.leb_le in Hlen.
    unfold token_ok.
    cbn [name text lookup list_lookup Nat.sub String.eqb Ascii.eqb
         Bool.eqb negb andb].
    by rewrite Hlen, Hall. }
  destruct (result_re s) as [m|] eqn:E5; [|discriminate].
  intros [= <- _]. unfold group.
  by apply result_re_groups in E5 as [->|[->| ->]].
Qed.

Lemma split_ws1_word s w r :
  split_ws1 s = [w; r] ->
  w <> "" /\ all_chars (fun c => negb (isspace c)) w = true.
Proof.
  unfold split_ws1. destruct (lstrip s) as [|c s1] eqn:E; [discriminate|].
  apply lstrip_head in E.
  destruct (span _ (String c s1)) as [w' r'] eqn:Hspan.
  destruct (lstrip r'); [discriminate|]. intros [= <- _].
  pose proof (span_spec _ _ _ _ Hspan) as (_ & Hall & _).
  split; [|exact Hall]. cbn [span] in Hspan. rewrite E in Hspan.
  cbn [negb] in Hspan. destruct (span _ s1). by injection Hspan as <- _.
Qed.

Lemma parse_game_step_token_ok s elt s' :
  parse_game_step s = Emit elt s' -> token_ok elt = true.
Proof.
  unfold parse_game_step. destruct (lstrip s) as [|c t]; [discriminate|].
  destruct (try_regexes game_regexes (String c t)) as [[e r]|] eqn:Ht.
  - intros [= <- _]. by eapply try_regexes_token_ok.
  - destruct (split_ws1 (String c t)) as [|w [|r [|]]] eqn:Hw;
      try discriminate.
    intros [= <- _]. apply split_ws1_word in Hw as [Hne Hall].
    unfold token_ok. cbn [name text String.eqb]. rewrite Hall.
    by destruct w.
Qed.

Lemma tokenizes_token_ok s game :
  tokenizes s game -> Forall (fun elt => token_ok elt = true) game.
Proof.
  induction 1 as [s Hdone|s elt s' game Hstep _ IH]; constructor;
    [|exact IH].
  by eapply parse_game_step_token_ok.
Qed.

(** X20. What the tokenizer puts in an element: a comment holds no closing
    brace, the two variation delimiters hold nothing, an evaluation holds one
    to three characters of the class of the evaluation pattern, a result is
    one of the three result tokens, and a move is a non-empty word without
    whitespace. *)
Theorem parse_game_tokens (s : string) (game : list PGNElement) :
  parse_game (Some s) = Ok game ->
  Forall (fun elt => token_ok elt = true) game.
Proof.
  intros Htok%parse_game_tokenizes. by eapply tokenizes_token_ok.
Qed.

Lemma all_chars_impl (p q : ascii -> bool) s :
  (forall c, p c = true -> q c = true) ->
  all_chars p s = true -> all_chars q s = true.
Proof.
  intros Hpq. induction s as [|c s IH]; [done|]. cbn [all_chars].
  intros [Hc Hs]%andb_true_iff. by rewrite (Hpq c Hc), IH.
Qed.

Lemma evaluation_char_no_percent c :
  evaluation_char c = true -> negb (Ascii.eqb c "%"%char) = true.
Proof. by destruct c as [[] [] [] [] [] [] [] []]. Qed.

(** X21. On what the parser produces, the elements written as they are
    cannot make the generator fail: a run of moves is written in a mainline
    command, an evaluation inline and a result as a paragraph, each time
    with the text unchanged. The text of an evaluation or of a result holds
    no percent sign, and the text of the moves is an argument. *)
Theorem write_elt_plain_never_fails (s : string) (raw : list PGNElement)
  (elt : PGNElement) (st : PGN2PDF) :
  parse_game (Some s) = Ok raw ->
  elt ∈ combine_moves raw ->
  (name elt = "moves" ->
   write_elt elt st
   = (Ok true, emit st (line_out ("\mainline { " +:+ text elt +:+ " }"))))
  /\ (name elt = "evaluation" ->
      write_elt elt st = (Ok true, emit st (line_out (text elt))))
  /\ (name elt = "result" ->
      write_elt elt st = (Ok true, emit st (paragraph_out (text elt)))).
Proof.
  intros Htok%parse_game_tokenizes%tokenizes_token_ok Hin.
  assert (token_ok elt = true \/ name elt = "moves") as Helt.
  { revert elt Hin. apply Forall_forall.
    apply combine_moves_loop_Forall; [by right|constructor|].
    eapply Forall_impl; [exact Htok|]. cbn. auto. }
  split; [|split]; intros Hname; unfold write_elt; rewrite Hname;
    cbn [String.eqb Ascii.eqb Bool.eqb]; rewrite bind_run.
  - unfold write_moves. rewrite on_tex_write_run. reflexivity.
  - destruct Helt as [Hok|Hn]; [|congruence].
    unfold token_ok in Hok. rewrite Hname in Hok.
    cbn [String.eqb Ascii.eqb Bool.eqb] in Hok.
    apply andb_true_iff in Hok as [_ Hall].
    rewrite on_tex_write_run, pyformat_no_percent; [reflexivity|].
    eapply all_chars_impl; [apply evaluation_char_no_percent|exact Hall].
  - destruct Helt as [Hok|Hn]; [|congruence].
    unfold token_ok in Hok. rewrite Hname in Hok.
    cbn [String.eqb Ascii.eqb Bool.eqb] in Hok.
    rewrite on_tex_write_run.
    repeat (apply orb_true_iff in Hok as [Hok|Hok]);
      apply String.eqb_eq in Hok as ->; reflexivity.
Qed.

(** ** The aggregator, run by run *)





End Program.

(** ** The statements on concrete inputs *)

(** The header parser on the scenario input: three header lines, the blank
    line, the movetext as body. *)
Lemma parse_headers_spec_witness :
  split_on nl scenario_pgn = scenario_headers ++ "" :: [scenario_movetext]
  /\ Forall (fun l => strip l <> "") scenario_headers
  /\ strip "" = ""
  /\ (forall format_other,
        parse_headers format_other scenario_pgn =
        Ok (collect_headers scenario_headers, Some scenario_movetext)).
Proof.
  assert (split_on nl scenario_pgn
          = scenario_headers ++ "" :: [scenario_movetext]) as Hsplit
    by reflexivity.
  assert (Forall (fun l => strip l <> "") scenario_headers) as Hpre
    by (repeat constructor; discriminate).
  split; [exact Hsplit|]. split; [exact Hpre|]. split; [reflexivity|].
  intros format_other.
  apply (proj1 (proj2 (parse_headers_spec format_other scenario_pgn
                         scenario_headers [scenario_movetext] ""
                         Hsplit Hpre eq_refl))).
  repeat constructor; by eexists.
Defined.

(** A file made of one header line and nothing else. *)
Lemma parse_headers_no_blank_line_witness :
  Forall (fun l => strip l <> "" /\ is_Some (header_re l))
         (split_on nl (header_line "White" "Smith"))
  /\ (forall format_other,
        PGNParser_init format_other (header_line "White" "Smith")
        = Raise AttributeError).
Proof.
  assert (Forall (fun l => strip l <> "" /\ is_Some (header_re l))
                 (split_on nl (header_line "White" "Smith"))) as H.
  { repeat constructor; [discriminate|by eexists]. }
  split; [exact H|]. intros format_other.
  apply (proj2 (parse_headers_no_blank_line format_other _ H)).
Defined.

(** The comment of the reordering scenario, the cursor on the
    [end-variation] element that follows it. *)
Lemma parse_comment_closes_variation_first_witness :
  reordering_game !! 4 = Some (PGNElt "end-variation" "")
  /\ islower "I" = false
  /\ (forall textwrap_wrap format_other,
        parse_comment textwrap_wrap format_other "Interesting idea."
          (generator reordering_game 4) =
        (on_tex (write textwrap_wrap format_other ")" [] false false);;
         advance_game_index;;
         comment_paragraphs textwrap_wrap format_other "Interesting idea.";;
         on_tex (end_variation textwrap_wrap format_other);;
         on_tex (write textwrap_wrap format_other "" [] false false))
          (generator reordering_game 4)).
Proof.
  split; [reflexivity|]. split; [reflexivity|].
  intros textwrap_wrap format_other.
  apply (proj1 (parse_comment_closes_variation_first
                  textwrap_wrap format_other)
           (generator reordering_game 4) "I"%char "nteresting idea."
           (PGNElt "end-variation" "") eq_refl eq_refl eq_refl).
Defined.

(** A one-line comment starting with a capital, followed by [end]. *)
Lemma parse_comment_inline_or_paragraphs_witness :
  paragraph_comment_game !! 1 = Some (PGNElt "end" "")
  /\ islower "B" = false
  /\ (forall textwrap_wrap format_other,
        parse_comment textwrap_wrap format_other "Better here."
          (generator paragraph_comment_game 1) =
        write_paragraphs textwrap_wrap format_other ["Better here."]
          (generator paragraph_comment_game 1)).
Proof.
  split; [reflexivity|]. split; [reflexivity|].
  intros textwrap_wrap format_other.
  rewrite (proj2 (proj1 (parse_comment_inline_or_paragraphs
                           textwrap_wrap format_other)
                    (generator paragraph_comment_game 1)
                    "B"%char "etter here.")
             eq_refl (PGNElt "end" "") eq_refl eq_refl).
  reflexivity.
Defined.

(** An opening parenthesis that is never closed: the parser and the
    generator both succeed on a game with one [start-variation] and no
    [end-variation] element. *)
Lemma unclosed_variation_accepted :
  count_name "start-variation" unclosed_game = 1
  /\ count_name "end-variation" unclosed_game = 0
  /\ (forall format_other,
        PGNParser_init format_other unclosed_pgn =
        Ok (MkPGNParser
              (collect_headers
                 [header_line "White" "Smith"; header_line "Black" "Doe"])
              unclosed_game))
  /\ (forall textwrap_wrap format_other,
        fst (pgn2tex textwrap_wrap format_other unclosed_pgn) = Ok tt).
Proof.
  repeat split; intros; vm_compute; reflexivity.
Qed.

(** A comment of one space does not start with a lower-case letter, and
    [parse_comment] writes nothing for it: the state is left as it was. *)
Lemma blank_comment_writes_nothing :
  islower " " = false
  /\ (forall textwrap_wrap format_other,
        parse_comment textwrap_wrap format_other " "
          (generator blank_comment_game 1)
        = (Ok tt, generator blank_comment_game 1)).
Proof.
  split; [reflexivity|]. intros. reflexivity.
Qed.

(** ** Further statements on concrete inputs *)

(** A move followed by a result. *)
Lemma parse_game_last_not_move_witness :
  parse_game (Some "e4 1-0") = Ok [PGNElt "move" "e4"; PGNElt "result" "1-0"]
  /\ name (PGNElt "result" "1-0") <> "move".
Proof.
  split; [reflexivity|].
  apply (parse_game_last_not_move "e4 1-0"
           [PGNElt "move" "e4"; PGNElt "result" "1-0"]
           (PGNElt "result" "1-0")); reflexivity.
Defined.

(** Two moves and a result. *)
Lemma combine_moves_on_parsed_witness :
  parse_game (Some "e4 e5 1-0")
  = Ok [PGNElt "move" "e4"; PGNElt "move" "e5"; PGNElt "result" "1-0"]
  /\ combine_moves
       [PGNElt "move" "e4"; PGNElt "move" "e5"; PGNElt "result" "1-0"]
     = [PGNElt "moves" "e4 e5"; PGNElt "result" "1-0"].
Proof.
  split; [reflexivity|].
  rewrite (combine_moves_on_parsed "e4 e5 1-0"
             [PGNElt "move" "e4"; PGNElt "move" "e5"; PGNElt "result" "1-0"]
             eq_refl).
  reflexivity.
Defined.

(** The parser of the end-to-end scenario. *)
Lemma PGNParser_init_game_witness :
  (forall format_other,
     PGNParser_init format_other scenario_pgn = Ok scenario_parser)
  /\ exists elts,
       game scenario_parser = elts ++ [PGNElt "end" ""]
       /\ Forall (fun elt => name elt ∈ generator_names) elts
       /\ processed (game scenario_parser) = elts.
Proof.
  assert (forall format_other,
            PGNParser_init format_other scenario_pgn = Ok scenario_parser)
    as Hinit by (intros; vm_compute; reflexivity).
  split; [exact Hinit|].
  exact (PGNParser_init_game (fun _ _ => inl TypeError) scenario_pgn
           scenario_parser (Hinit _)).
Defined.

(** The headers of the end-to-end scenario: the Result line comes last. *)
Lemma parse_headers_lookup_last_witness :
  header_entry (header_line "Result" "1-0") = Some ("result", "1-0")
  /\ (forall format_other,
        exists hs,
          parse_headers format_other scenario_pgn
          = Ok (hs, Some scenario_movetext)
          /\ hs !! "result" = Some "1-0").
Proof.
  split; [reflexivity|]. intros format_other.
  apply (parse_headers_lookup_last format_other scenario_pgn
           [header_line "White" "Smith, John"; header_line "Black" "Doe, Jane"]
           [scenario_movetext] (header_line "Result" "1-0") ""
           "result" "1-0");
    try reflexivity.
  repeat constructor; (discriminate || by eexists).
Defined.

(** A result token has no percent sign. *)
Lemma write_verbatim_witness :
  all_chars (fun c => negb (Ascii.eqb c "%"%char)) "1-0" = true
  /\ (forall textwrap_wrap format_other w,
        write textwrap_wrap format_other "1-0" [] true false w
        = (Ok tt,
           with_out w (write_out textwrap_wrap "1-0" true false))).
Proof.
  split; [reflexivity|]. intros textwrap_wrap format_other w.
  apply (proj2 (proj2 (write_verbatim textwrap_wrap format_other "1-0"
                         eq_refl))).
Defined.

(** Closing a variation on a new writer. *)
Lemma end_variation_cases_witness :
  variation_stack TEXWriter_init = []
  /\ (forall textwrap_wrap format_other,
        end_variation textwrap_wrap format_other TEXWriter_init
        = (Raise IndexError, TEXWriter_init)).
Proof.
  split; [reflexivity|]. intros textwrap_wrap format_other.
  apply (proj1 (end_variation_cases textwrap_wrap format_other
                  TEXWriter_init) eq_refl).
Defined.

(** The generator at the start of the reordering scenario. *)
Lemma generator_cursor_bounds_witness :
  game_index (generator reordering_game 0)
  <= length (game (pgn (generator reordering_game 0)))
  /\ (forall textwrap_wrap format_other,
        game_index
          (snd (write_game textwrap_wrap format_other
                  (generator reordering_game 0)))
        <= length reordering_game).
Proof.
  assert (game_index (generator reordering_game 0)
          <= length (game (pgn (generator reordering_game 0)))) as H
    by (cbn; lia).
  split; [exact H|]. intros textwrap_wrap format_other.
  apply (generator_cursor_bounds textwrap_wrap format_other
           (generator reordering_game 0) H).
Defined.

Lemma generator_fresh_ids_witness :
  fresh_ids (tex (generator reordering_game 0))
  /\ (forall textwrap_wrap format_other,
        fresh_ids
          (tex (snd (write_game textwrap_wrap format_other
                       (generator reordering_game 0))))).
Proof.
  assert (fresh_ids (tex (generator reordering_game 0))) as H.
  { exists []. repeat split; constructor. }
  split; [exact H|]. intros textwrap_wrap format_other.
  apply (generator_fresh_ids textwrap_wrap format_other
           (generator reordering_game 0) H).
Defined.

(** The document of the end-to-end scenario. *)
Lemma convert_frames_document_witness :
  (forall textwrap_wrap format_other,
     fst (convert textwrap_wrap format_other
            (MkPGN2PDF scenario_parser 0 TEXWriter_init)) = Ok tt)
  /\ (forall textwrap_wrap format_other,
        exists body,
          out (tex (snd (convert textwrap_wrap format_other
                           (MkPGN2PDF scenario_parser 0 TEXWriter_init))))
          = [] ++ preamble_out textwrap_wrap ++ body
            ++ closing_out textwrap_wrap).
Proof.
  assert (forall textwrap_wrap format_other,
            fst (convert textwrap_wrap format_other
                   (MkPGN2PDF scenario_parser 0 TEXWriter_init)) = Ok tt)
    as H by (intros; vm_compute; reflexivity).
  split; [exact H|]. intros textwrap_wrap format_other.
  apply (proj2 (convert_frames_document textwrap_wrap format_other
                  (MkPGN2PDF scenario_parser 0 TEXWriter_init)) (H _ _)).
Defined.

(** A game without headers. *)
Lemma convert_missing_player_witness :
  headers (pgn (generator [PGNElt "end" ""] 0)) !! "white" = None
  /\ (forall textwrap_wrap format_other,
        convert textwrap_wrap format_other (generator [PGNElt "end" ""] 0)
        = (Raise (KeyError "white"),
           emit (generator [PGNElt "end" ""] 0)
                (preamble_out textwrap_wrap))).
Proof.
  split; [reflexivity|]. intros textwrap_wrap format_other.
  apply (proj1 (convert_missing_player textwrap_wrap format_other
                  (generator [PGNElt "end" ""] 0)) eq_refl).
Defined.

(** The title example: both players, the site and the date. *)
Lemma make_title_spec_witness :
  headers (pgn title_generator) !! "white" = Some "Smith, John"
  /\ headers (pgn title_generator) !! "black" = Some "Doe, Jane"
  /\ (forall format_other,
        make_title format_other title_generator
        = (Ok "Smith - Doe London 2020", title_generator)).
Proof.
  assert (headers (pgn title_generator) !! "white" = Some "Smith, John")
    as Hw by (vm_compute; reflexivity).
  assert (headers (pgn title_generator) !! "black" = Some "Doe, Jane")
    as Hb by (vm_compute; reflexivity).
  split; [exact Hw|]. split; [exact Hb|]. intros format_other.
  rewrite (make_title_spec format_other title_generator _ _ Hw Hb).
  vm_compute. reflexivity.
Defined.

(** The generator of the title example, which has no [fen] header. *)
Lemma convert_header_part_witness :
  headers (pgn title_generator) !! "white" = Some "Smith, John"
  /\ headers (pgn title_generator) !! "black" = Some "Doe, Jane"
  /\ (forall textwrap_wrap format_other,
        convert textwrap_wrap format_other title_generator
        = (write_game textwrap_wrap format_other;;
           on_tex (end_ textwrap_wrap format_other))
            (emit title_generator
               (header_out textwrap_wrap title_headers
                  "Smith, John" "Doe, Jane"))).
Proof.
  assert (headers (pgn title_generator) !! "white" = Some "Smith, John")
    as Hw by (vm_compute; reflexivity).
  assert (headers (pgn title_generator) !! "black" = Some "Doe, Jane")
    as Hb by (vm_compute; reflexivity).
  split; [exact Hw|]. split; [exact Hb|].
  intros textwrap_wrap format_other.
  apply (convert_header_part textwrap_wrap format_other title_generator
           _ _ Hw Hb).
Defined.

(** A move, an evaluation, a comment and a result. *)
Lemma parse_game_tokens_witness :
  parse_game (Some "e4 +- {good} 1-0")
  = Ok [PGNElt "move" "e4"; PGNElt "evaluation" "+-";
        PGNElt "comment" "good"; PGNElt "result" "1-0"]
  /\ Forall (fun elt => token_ok elt = true)
       [PGNElt "move" "e4"; PGNElt "evaluation" "+-";
        PGNElt "comment" "good"; PGNElt "result" "1-0"].
Proof.
  split; [reflexivity|].
  apply (parse_game_tokens "e4 +- {good} 1-0"). reflexivity.
Defined.

(** The result element of a parsed game of two moves and a result. *)
Lemma write_elt_plain_never_fails_witness :
  parse_game (Some "e4 e5 1-0")
  = Ok [PGNElt "move" "e4"; PGNElt "move" "e5"; PGNElt "result" "1-0"]
  /\ (forall textwrap_wrap format_other,
        write_elt textwrap_wrap format_other (PGNElt "result" "1-0")
          (generator [] 0)
        = (Ok true,
           emit (generator [] 0) (paragraph_out textwrap_wrap "1-0"))).
Proof.
  split; [reflexivity|]. intros textwrap_wrap format_other.
  apply (proj2 (proj2 (write_elt_plain_never_fails textwrap_wrap format_other
                         "e4 e5 1-0"
                         [PGNElt "move" "e4"; PGNElt "move" "e5";
                          PGNElt "result" "1-0"]
                         (PGNElt "result" "1-0") (generator [] 0)
                         eq_refl
                         (list_elem_of_further _ _ _
                            (list_elem_of_here _ _))))).
  reflexivity.
Defined.

